(** * Formatter: a verification of [format_util.h]

    The header-only class [Formatter] fills the placeholders [%?] of a
    template string with the textual form of its arguments.  This file embeds
    the class in Rocq and proves properties of it:

    - the settings accessors ([Flags], [SetF], [UnSetF], [Imbue],
      [Precision]) as state-passing functions on the three data members;
    - the string stream that [Format] makes, with the field width, the fill
      character and the state that the arguments written to it can change;
    - the overload set [OutputValue], with the overload resolution that picks
      one of its six members for the static type of an argument, and whether
      the body of the selected member compiles for that type;
    - [GetOutputParameters] and the three [Format] overloads, the scanning
      loop written over [size_t] positions with [find], [substr] and [at],
      all of them on the one stream of the call. *)

From Stdlib Require Import ZArith Lia List Bool Ascii String.
Import ListNotations.

Set Warnings "-register-all".

Local Open Scope string_scope.
Local Open Scope Z_scope.

(** ** Machine integers and outcomes *)

Module SizeT.

(** [size_t] is taken 64 bits wide; arithmetic on it wraps around. *)
Definition modulus : Z := 18446744073709551616.

Definition wrap (z : Z) : Z := z mod modulus.

(** [std::string::npos] is [size_t(-1)]. *)
Definition npos : Z := modulus - 1.

End SizeT.

Import SizeT.

(** What a call can come to.  [Throws] is a C++ exception leaving the call
    ([substr] and [at] throw [std::out_of_range]); [Rejected] is a call the
    compiler refuses because overload resolution finds no best function;
    [OutOfFuel] says that the iteration budget given to a loop was too small
    (it is shown below never to happen with the budget [Format] gives). *)
Inductive exception : Type := out_of_range.

Inductive outcome (A : Type) : Type :=
| Ok (a : A)
| Throws (e : exception)
| Rejected
| OutOfFuel.

Arguments Ok {A} a.
Arguments Throws {A} e.
Arguments Rejected {A}.
Arguments OutOfFuel {A}.

Definition bind {A B : Type} (m : outcome A) (k : A -> outcome B) : outcome B :=
  match m with
  | Ok a => k a
  | Throws e => Throws e
  | Rejected => Rejected
  | OutOfFuel => OutOfFuel
  end.

Notation "x <- m ;; k" := (bind m (fun x => k))
  (at level 61, m at next level, right associativity).

(** ** The part of [std::basic_string<char>] that [Format] uses *)

Module StdString.

Definition size (s : string) : Z := Z.of_nat (String.length s).

(** [std::strlen] of a string literal. *)
Definition strlen (s : string) : Z := Z.of_nat (String.length s).

(** [s.find(pat, from)]: the position of the first occurrence of [pat] that
    starts at or after [from], [npos] when there is none. *)
Definition find (s pat : string) (from : Z) : Z :=
  match String.index (Z.to_nat from) pat s with
  | Some p => Z.of_nat p
  | None => npos
  end.

(** [s.substr(pos, count)]: throws when [pos > size()], otherwise the
    [min(count, size() - pos)] characters from [pos] on. *)
Definition substr (s : string) (pos count : Z) : outcome string :=
  if size s <? pos then Throws out_of_range
  else Ok (String.substring (Z.to_nat pos)
                            (Z.to_nat (Z.min count (size s - pos))) s).

(** [s.at(pos)]: throws when [pos >= size()]. *)
Definition at_ (s : string) (pos : Z) : outcome ascii :=
  match String.get (Z.to_nat pos) s with
  | Some c => Ok c
  | None => Throws out_of_range
  end.

End StdString.

Import StdString.

(** ** The scanning loop of [Format] *)

(** The format specifier (member [SUBSTITUTE_MASK]). *)
Definition SUBSTITUTE_MASK : string := "%?".

(** The locals of [Format] that live across iterations.  [pos] is assigned
    afresh at the head of every iteration and is local to the loop body.
    [stream] holds the characters of the stream, for a stream that is good
    and has no field width pending, on which an insertion of characters
    appends them; the loop on the stream with its formatting state is
    [Format_while] below. *)
Record locals : Type := Locals {
  last_pos : Z;
  arg_counter : Z;
  stream : string
}.

(** One run of the [while] loop of [Format], from the state [st], over the
    array [parameter_values] of rendered arguments.  The result is the state
    at the loop's exit. *)
Fixpoint Format_loop (fuel : nat) (str : string)
    (parameter_values : list string) (st : locals) : outcome locals :=
  match fuel with
  | O => OutOfFuel
  | S fuel' =>
    let args_sz := Z.of_nat (List.length parameter_values) in
    let mask_len := strlen SUBSTITUTE_MASK in
    let pos := find str SUBSTITUTE_MASK (last_pos st) in
    if pos =? npos then Ok st
    else
      screened <-
        (if 0 <? pos
         then c <- at_ str (wrap (pos - 1)) ;; Ok (Ascii.eqb c "%")
         else Ok false) ;;
      if (screened : bool) then
        piece <- substr str (last_pos st) (wrap (pos - last_pos st - 1)) ;;
        Format_loop fuel' str parameter_values
          {| last_pos := wrap (pos + mask_len);
             arg_counter := arg_counter st;
             stream := stream st ++ piece ++ SUBSTITUTE_MASK |}
      else
        piece <- substr str (last_pos st) (wrap (pos - last_pos st)) ;;
        if arg_counter st <? args_sz then
          Format_loop fuel' str parameter_values
            {| last_pos := wrap (pos + mask_len);
               arg_counter := wrap (arg_counter st + 1);
               stream := stream st ++ piece
                         ++ nth (Z.to_nat (arg_counter st)) parameter_values "" |}
        else
          Format_loop fuel' str parameter_values
            {| last_pos := wrap (pos + mask_len);
               arg_counter := arg_counter st;
               stream := stream st ++ piece ++ "?" |}
  end.

(** The iteration budget: every iteration moves [last_pos] forward by at
    least the length of the mask, so the loop body runs at most
    [size / 2] times before the search fails. *)
Definition loop_budget (str : string) : nat := S (String.length str).

(** The body of the general overload
    [Format(const std::basic_string<T>&, Args...)] once the arguments have
    been rendered into [parameter_values], on such a stream: the loop from
    the initial state, then the tail of the template. *)
Definition Format_scan (str : string) (parameter_values : list string)
    : outcome string :=
  st <- Format_loop (loop_budget str) str parameter_values
          {| last_pos := 0; arg_counter := 0; stream := "" |} ;;
  rest <- substr str (last_pos st) (wrap (size str - last_pos st)) ;;
  Ok (stream st ++ rest).

(** The value of [arg_counter] when the loop exits: the number of rendered
    arguments that were inserted. *)
Definition arguments_consumed (str : string) (parameter_values : list string)
    : outcome Z :=
  st <- Format_loop (loop_budget str) str parameter_values
          {| last_pos := 0; arg_counter := 0; stream := "" |} ;;
  Ok (arg_counter st).

(** ** Settings *)

(** [std::ios_base::fmtflags] is a bitmask type; its operators [|], [&] and
    [~] are those of the underlying integer.  The constants are the ones of
    libstdc++; the proofs below use of their values only that they are
    distinct bits. *)
Module ios_base.
Definition fmtflags : Type := Z.
Definition boolalpha : fmtflags := 1.
Definition dec : fmtflags := 2.
Definition hex : fmtflags := 8.
Definition internal : fmtflags := 16.
Definition left : fmtflags := 32.
Definition oct : fmtflags := 64.
Definition right : fmtflags := 128.
Definition showbase : fmtflags := 512.
Definition showpos : fmtflags := 2048.
Definition skipws : fmtflags := 4096.
Definition uppercase : fmtflags := 16384.
Definition adjustfield : fmtflags := Z.lor left (Z.lor right internal).
Definition basefield : fmtflags := Z.lor dec (Z.lor oct hex).
End ios_base.

Definition streamsize : Type := Z.

(** A [std::locale] is identified by its name. *)
Definition locale : Type := string.

(** The data members of the class. *)
Record Formatter : Type := {
  m_ptr_locale : locale;
  m_flags : ios_base.fmtflags;
  m_precision : streamsize
}.

(** [Formatter()], in a program whose global locale is [global]. *)
Definition Formatter_default (global : locale) : Formatter :=
  {| m_ptr_locale := global;
     m_flags := Z.lor ios_base.skipws ios_base.dec;
     m_precision := 6 |}.

(** [Formatter(loc, flags, precision)]. *)
Definition Formatter_of (loc : locale) (flags : ios_base.fmtflags)
    (precision : streamsize) : Formatter :=
  {| m_ptr_locale := loc; m_flags := flags; m_precision := precision |}.

(** The accessors.  A member function that changes the object returns its
    result together with the new object; [UnSetF] is declared [void]. *)
Definition Flags (f : Formatter) : ios_base.fmtflags := m_flags f.

Definition Flags_set (flags : ios_base.fmtflags) (f : Formatter)
    : ios_base.fmtflags * Formatter :=
  let old_flags := m_flags f in
  (old_flags,
   {| m_ptr_locale := m_ptr_locale f; m_flags := flags;
      m_precision := m_precision f |}).

Definition SetF (flags : ios_base.fmtflags) (f : Formatter)
    : ios_base.fmtflags * Formatter :=
  let old_flags := m_flags f in
  (old_flags,
   {| m_ptr_locale := m_ptr_locale f; m_flags := Z.lor (m_flags f) flags;
      m_precision := m_precision f |}).

Definition SetF_mask (flags mask : ios_base.fmtflags) (f : Formatter)
    : ios_base.fmtflags * Formatter :=
  let old_flags := m_flags f in
  let cleared := Z.land (m_flags f) (Z.lnot mask) in
  (old_flags,
   {| m_ptr_locale := m_ptr_locale f;
      m_flags := Z.lor cleared (Z.land flags mask);
      m_precision := m_precision f |}).

Definition UnSetF (flags : ios_base.fmtflags) (f : Formatter)
    : unit * Formatter :=
  (tt,
   {| m_ptr_locale := m_ptr_locale f;
      m_flags := Z.land (m_flags f) (Z.lnot flags);
      m_precision := m_precision f |}).

Definition Imbue (loc : locale) (f : Formatter) : locale * Formatter :=
  let old_locale := m_ptr_locale f in
  (old_locale,
   {| m_ptr_locale := loc; m_flags := m_flags f;
      m_precision := m_precision f |}).

Definition Getloc (f : Formatter) : locale := m_ptr_locale f.

Definition Precision (f : Formatter) : streamsize := m_precision f.

Definition Precision_set (prec : streamsize) (f : Formatter)
    : streamsize * Formatter :=
  let old_prec := m_precision f in
  (old_prec,
   {| m_ptr_locale := m_ptr_locale f; m_flags := m_flags f;
      m_precision := prec |}).

(** ** The string stream *)

(** The formatting state of a stream, the part of [std::basic_ios] that
    bears on what is written: precision, locale and flags, which
    [AssignStreamSettings] sets, and the field width, the fill character and
    whether the stream is in a good state ([rdstate() == goodbit]), which the
    arguments written to the stream can change.  The exception mask stays
    empty, so a failed state raises nothing. *)
Record ios : Type := {
  ios_precision : streamsize;
  ios_getloc : locale;
  ios_flags : ios_base.fmtflags;
  ios_width : streamsize;
  ios_fill : ascii;
  ios_good : bool
}.

(** [std::basic_stringstream<T> stream]: the characters written so far, which
    [stream.str()] returns, and the formatting state. *)
Record basic_stringstream : Type := {
  rdbuf : string;
  basic_ios : ios
}.

(** [std::basic_stringstream<T> stream;] with the locale [loc]: the state
    that [std::basic_ios::init] gives. *)
Definition basic_stringstream_init (loc : locale) : basic_stringstream :=
  {| rdbuf := "";
     basic_ios :=
       {| ios_precision := 6;
          ios_getloc := loc;
          ios_flags := Z.lor ios_base.skipws ios_base.dec;
          ios_width := 0;
          ios_fill := " "%char;
          ios_good := true |} |}.

(** [stream.str(s)] replaces the characters and nothing else. *)
Definition str_set (stream : basic_stringstream) (s : string)
    : basic_stringstream :=
  {| rdbuf := s; basic_ios := basic_ios stream |}.

Definition AssignStreamSettings (f : Formatter) (stream : basic_stringstream)
    : basic_stringstream :=
  let io := basic_ios stream in
  {| rdbuf := rdbuf stream;
     basic_ios :=
       {| ios_precision := m_precision f;
          ios_getloc := m_ptr_locale f;
          ios_flags := m_flags f;
          ios_width := ios_width io;
          ios_fill := ios_fill io;
          ios_good := ios_good io |} |}.

(** [os.width(0)], which ends every formatted insertion. *)
Definition width_0 (io : ios) : ios :=
  {| ios_precision := ios_precision io;
     ios_getloc := ios_getloc io;
     ios_flags := ios_flags io;
     ios_width := 0;
     ios_fill := ios_fill io;
     ios_good := ios_good io |}.

(** [os.width(n)]. *)
Definition width_set (n : streamsize) (io : ios) : ios :=
  {| ios_precision := ios_precision io;
     ios_getloc := ios_getloc io;
     ios_flags := ios_flags io;
     ios_width := n;
     ios_fill := ios_fill io;
     ios_good := ios_good io |}.

(** [os.setstate(std::ios_base::failbit)]. *)
Definition setstate_failbit (io : ios) : ios :=
  {| ios_precision := ios_precision io;
     ios_getloc := ios_getloc io;
     ios_flags := ios_flags io;
     ios_width := ios_width io;
     ios_fill := ios_fill io;
     ios_good := false |}.

(** What an [operator<<] does to the stream: it appends characters, and it
    may change the formatting state.  The characters and the new state
    depend on the state it finds.  An [operator<<] is taken to return: it
    throws nothing, and it does not move the position of the stream. *)
Definition inserter : Type := ios -> string * ios.

(** [stream << t], for the operator [ins] of [t]. *)
Definition run (ins : inserter) (stream : basic_stringstream)
    : basic_stringstream :=
  let (text, io) := ins (basic_ios stream) in
  {| rdbuf := rdbuf stream ++ text; basic_ios := io |}.

Fixpoint fill_n (n : nat) (c : ascii) : string :=
  match n with
  | O => ""
  | S n' => String c (fill_n n' c)
  end.

(** The characters of [s] in a field of the pending width: when the width
    exceeds the size, fill characters are added, behind [s] when
    [adjustfield] is [left] and in front of it otherwise. *)
Definition padded (io : ios) (s : string) : string :=
  let w := ios_width io in
  let n := size s in
  if n <? w then
    let fill := fill_n (Z.to_nat (w - n)) (ios_fill io) in
    if Z.land (ios_flags io) ios_base.adjustfield =? ios_base.left
    then s ++ fill
    else fill ++ s
  else s.

(** The [operator<<] of the library for a [std::basic_string], a
    [const char*] and a [char]: on a good stream the characters are written
    in a field of the pending width and the width is reset; on a stream
    that is not good nothing is written. *)
Definition insert_string (s : string) : inserter :=
  fun io => if ios_good io then (padded io s, width_0 io) else ("", io).

(** [stream << s] for such an [s]. *)
Definition put (stream : basic_stringstream) (s : string)
    : basic_stringstream :=
  run (insert_string s) stream.

(** The [operator<<] of the library for a [bool], [std::num_put::do_put].
    With [boolalpha] the name of the value is written like a string; the
    names are those of [std::numpunct], [true] and [false], which locales
    made from a name keep.  Without [boolalpha] the value is written as the
    integer [1] or [0]: in decimal with a [+] under [showpos], in octal or
    hexadecimal with the base prefix under [showbase] when the value is not
    zero; under [internal] the fill characters follow a sign or a [0x]. *)
Definition num_put_bool (b : bool) : inserter :=
  fun io =>
    if ios_good io then
      let flags := ios_flags io in
      if Z.land flags ios_base.boolalpha =? 0 then
        let basefield := Z.land flags ios_base.basefield in
        let digit := if b then "1" else "0" in
        let prefix :=
          if negb (basefield =? ios_base.oct)
             && negb (basefield =? ios_base.hex)
          then (if Z.land flags ios_base.showpos =? 0 then "" else "+")
          else if negb (Z.land flags ios_base.showbase =? 0) && b
          then (if basefield =? ios_base.oct then "0"
                else if Z.land flags ios_base.uppercase =? 0 then "0x"
                else "0X")
          else "" in
        let text :=
          if (Z.land flags ios_base.adjustfield =? ios_base.internal)
             && negb (String.eqb prefix "") && negb (String.eqb prefix "0")
          then prefix
               ++ fill_n (Z.to_nat (ios_width io - size (prefix ++ digit)))
                    (ios_fill io)
               ++ digit
          else padded io (prefix ++ digit) in
        (text, width_0 io)
      else (padded io (if b then "true" else "false"), width_0 io)
    else ("", io).

(** ** Arguments *)

(** The static type of an argument, with what it offers to the overloads of
    [OutputValue]:
    - [bool_type] and [basic_string_type] are [bool] and
      [std::basic_string<char>];
    - [pair_type] is a [std::pair] of two types; [inserter] tells whether
      the program declares an [operator<<] for it;
    - [class_type] is any other type without the members of a container;
      [inserter] tells whether [std::cout << t] is well-formed (numbers,
      [const char*], manipulators and classes with an [operator<<]);
    - [sequence_type] is a type with [const_iterator], [value_type],
      [begin()] and [end()]; [value_type] is the type of its elements,
      [has_empty] and [has_decrement] tell whether [t.empty()] and
      [--t.end()] are well-formed, which the body of the sequence overload
      relies on. *)
Inductive type : Type :=
| bool_type
| basic_string_type
| pair_type (first_type second_type : type) (inserter : bool)
| class_type (inserter : bool)
| sequence_type (inserter : bool) (value_type : type)
    (has_empty has_decrement : bool).

(** An argument of [Format].  Where its type has an [operator<<], the
    argument carries what the operator does for it. *)
Inductive value : Type :=
| Bool (b : bool)
| BasicString (s : string)
| Pair (first second : value) (operator : option inserter)
| Object (operator : option inserter)
| Sequence (operator : option inserter) (value_type : type)
    (has_empty has_decrement : bool) (elements : list value).

Definition is_some {A : Type} (o : option A) : bool :=
  match o with Some _ => true | None => false end.

(** The static type of an argument. *)
Fixpoint type_of (t : value) : type :=
  match t with
  | Bool _ => bool_type
  | BasicString _ => basic_string_type
  | Pair first second operator =>
      pair_type (type_of first) (type_of second) (is_some operator)
  | Object operator => class_type (is_some operator)
  | Sequence operator value_type has_empty has_decrement _ =>
      sequence_type (is_some operator) value_type has_empty has_decrement
  end.


(** What [stream << t] does, when that expression is well-formed. *)
Definition inserter_of (t : value) : option inserter :=
  match t with
  | Bool b => Some (num_put_bool b)
  | BasicString s => Some (insert_string s)
  | Pair _ _ operator => operator
  | Object operator => operator
  | Sequence operator _ _ _ _ => operator
  end.

(** [Output(t)] wraps [t] into an [FWrapper], whose [operator<<] writes
    [os << fw.t].  The wrapper has no iterators.  When [t] has no
    [operator<<] the wrapper's operator does not instantiate. *)
Definition Output (t : value) : option value :=
  match inserter_of t with
  | Some ins => Some (Object (Some ins))
  | None => None
  end.

(** ** Overload resolution for [OutputValue] *)

(** The six function templates named [OutputValue], in declaration order. *)
Inductive overload : Type :=
| ov_inserter       (* (Stream&, const T&), needs std::cout << t *)
| ov_sequence       (* (Stream&, const T&), needs const_iterator, value_type,
                       begin(), end() *)
| ov_basic_string   (* (Stream&, const std::basic_string<T>&) *)
| ov_pair           (* (Stream&, const std::pair<T,V>&) *)
| ov_bool           (* (Stream&, bool) *)
| ov_ellipsis.      (* (Stream&, ...) *)

Definition overload_eqb (a b : overload) : bool :=
  match a, b with
  | ov_inserter, ov_inserter | ov_sequence, ov_sequence
  | ov_basic_string, ov_basic_string | ov_pair, ov_pair
  | ov_bool, ov_bool | ov_ellipsis, ov_ellipsis => true
  | _, _ => false
  end.

Definition candidates : list overload :=
  [ov_inserter; ov_sequence; ov_basic_string; ov_pair; ov_bool; ov_ellipsis].

(** Whether [std::cout << t] is well-formed for [t] of type [T]. *)
Definition has_inserter (T : type) : bool :=
  match T with
  | bool_type => true
  | basic_string_type => true
  | pair_type _ _ inserter => inserter
  | class_type inserter => inserter
  | sequence_type inserter _ _ _ => inserter
  end.

(** Template argument deduction and substitution succeed.  [ov_bool] is also
    viable for an argument of another type that converts to [bool], a number
    or a pointer; such an argument is written by [std::cout << t] as well,
    and [ov_inserter], which binds it without a conversion, is the better
    candidate, so [ov_bool] is left out for it.  The conditions of
    [ov_sequence] are the four in its template parameter list; [empty()] and
    [--t.end()] are not among them. *)
Definition viable (T : type) (o : overload) : bool :=
  match o with
  | ov_inserter => has_inserter T
  | ov_sequence =>
      match T with
      | basic_string_type => true
      | sequence_type _ _ _ _ => true
      | _ => false
      end
  | ov_basic_string => match T with basic_string_type => true | _ => false end
  | ov_pair => match T with pair_type _ _ _ => true | _ => false end
  | ov_bool => match T with bool_type => true | _ => false end
  | ov_ellipsis => true
  end.

(** Partial ordering of the function templates: the templates whose second
    parameter is [const std::basic_string<T>&], [const std::pair<T,V>&] or
    [bool] are more specialized than the two whose second parameter is
    [const T&]; those two have the same parameter types and are not
    ordered. *)
Definition more_specialized (a b : overload) : bool :=
  match a, b with
  | (ov_basic_string | ov_pair | ov_bool), (ov_inserter | ov_sequence) => true
  | _, _ => false
  end.

(** [a] is a better candidate than [b]: an ellipsis conversion is worse than
    any other; the other viable candidates all bind the argument without a
    conversion, and the more specialized template is preferred. *)
Definition better (a b : overload) : bool :=
  match a, b with
  | ov_ellipsis, _ => false
  | _, ov_ellipsis => true
  | _, _ => more_specialized a b
  end.

(** The best viable function is viable and better than every other viable
    candidate; without one the call is ambiguous. *)
Definition best (T : type) (o : overload) : bool :=
  viable T o
  && forallb (fun o' => overload_eqb o o' || negb (viable T o') || better o o')
             candidates.

Definition resolve (T : type) : option overload :=
  List.find (best T) candidates.

(** The call [OutputValue(stream, t)] compiles for [t] of type [T]: an
    overload is selected and its body is well-formed.  The body of the
    sequence overload calls [t.empty()] and [--t.end()], and it calls
    [OutputValue] on an element, which is instantiated from [value_type]
    whether the container holds an element or not; the body of the pair
    overload calls [OutputValue] on both members. *)
Fixpoint instantiates (T : type) : bool :=
  match resolve T, T with
  | Some ov_sequence, sequence_type _ value_type has_empty has_decrement =>
      has_empty && has_decrement && instantiates value_type
  | Some ov_pair, pair_type first_type second_type _ =>
      instantiates first_type && instantiates second_type
  | Some (ov_sequence | ov_pair), _ => false
  | Some _, _ => true
  | None, _ => false
  end.

(** ** [OutputValue] *)

(** The [for] loop of the sequence overload, over a container that is not
    empty.  An iterator is the list of the elements from its position on:
    [t.end()] is [[]], and [it != last] holds while more than one element is
    left.  [OutputValue] is the nested call on an element. *)
Definition sequence_loop
    (OutputValue : value -> basic_stringstream -> option basic_stringstream)
    : list value -> basic_stringstream -> option basic_stringstream :=
  fix loop (it : list value) (stream : basic_stringstream)
      : option basic_stringstream :=
    match it with
    | [] => Some stream
    | x :: it' =>
        match OutputValue x stream with
        | Some stream =>
            loop it' (match it' with
                      | [] => stream
                      | _ :: _ => put stream ", "
                      end)
        | None => None
        end
    end.

(** The call [OutputValue(stream, t)]: the selected overload runs on the
    stream, and the result is the stream afterwards; [None] when the call
    does not compile. *)
Fixpoint OutputValue (t : value) (stream : basic_stringstream) {struct t}
    : option basic_stringstream :=
  if instantiates (type_of t) then
    match resolve (type_of t), t with
    | Some ov_inserter, _ =>
        match inserter_of t with
        | Some ins => Some (run ins stream)
        | None => None
        end
    | Some ov_sequence, Sequence _ _ _ _ elements =>
        let stream := put stream "[" in
        match elements with
        | [] => Some (put stream "]")
        | _ :: _ =>
            match sequence_loop OutputValue elements stream with
            | Some stream => Some (put stream "]")
            | None => None
            end
        end
    | Some ov_basic_string, BasicString str => Some (put stream str)
    | Some ov_pair, Pair first second _ =>
        match OutputValue first (put stream "{") with
        | Some stream =>
            match OutputValue second (put stream " : ") with
            | Some stream => Some (put stream "}")
            | None => None
            end
        | None => None
        end
    | Some ov_bool, Bool b => Some (put stream (if b then "true" else "false"))
    | Some ov_ellipsis, _ => Some (put stream "?")
    | _, _ => None
    end
  else None.

(** [GetOutputParameters(stream, it, args...)]: every argument is written to
    the stream, the characters are stored in the array, and [stream.str("")]
    empties the stream, whose formatting state stays as the argument left
    it.  The result is the array and the stream.  Both overloads take at
    least one argument: no overload accepts an empty pack. *)
Fixpoint GetOutputParameters (stream : basic_stringstream)
    (args : list value) : option (list string * basic_stringstream) :=
  match args with
  | [] => None
  | [t] =>
      match OutputValue t stream with
      | Some stream => Some ([rdbuf stream], str_set stream "")
      | None => None
      end
  | t :: args' =>
      match OutputValue t stream with
      | Some stream =>
          match GetOutputParameters (str_set stream "") args' with
          | Some (texts, stream') => Some (rdbuf stream :: texts, stream')
          | None => None
          end
      | None => None
      end
  end.

(** ** [Format] *)

(** The locals of the general overload that live across iterations, with
    the stream as [GetOutputParameters] has left it. *)
Record scan : Type := Scan {
  scan_last_pos : Z;
  scan_arg_counter : Z;
  scan_stream : basic_stringstream
}.

(** The [while] loop of [Format] on that stream. *)
Fixpoint Format_while (fuel : nat) (str : string)
    (parameter_values : list string) (st : scan) : outcome scan :=
  match fuel with
  | O => OutOfFuel
  | S fuel' =>
    let args_sz := Z.of_nat (List.length parameter_values) in
    let mask_len := strlen SUBSTITUTE_MASK in
    let pos := find str SUBSTITUTE_MASK (scan_last_pos st) in
    if pos =? npos then Ok st
    else
      screened <-
        (if 0 <? pos
         then c <- at_ str (wrap (pos - 1)) ;; Ok (Ascii.eqb c "%")
         else Ok false) ;;
      if (screened : bool) then
        piece <- substr str (scan_last_pos st)
                   (wrap (pos - scan_last_pos st - 1)) ;;
        Format_while fuel' str parameter_values
          {| scan_last_pos := wrap (pos + mask_len);
             scan_arg_counter := scan_arg_counter st;
             scan_stream := put (put (scan_stream st) piece) SUBSTITUTE_MASK |}
      else
        piece <- substr str (scan_last_pos st)
                   (wrap (pos - scan_last_pos st)) ;;
        let stream := put (scan_stream st) piece in
        if scan_arg_counter st <? args_sz then
          Format_while fuel' str parameter_values
            {| scan_last_pos := wrap (pos + mask_len);
               scan_arg_counter := wrap (scan_arg_counter st + 1);
               scan_stream :=
                 put stream
                   (nth (Z.to_nat (scan_arg_counter st)) parameter_values "") |}
        else
          Format_while fuel' str parameter_values
            {| scan_last_pos := wrap (pos + mask_len);
               scan_arg_counter := scan_arg_counter st;
               scan_stream := put stream "?" |}
  end.

(** The general overload from its loop on: the loop, the rest of the
    template, and [stream.str()]. *)
Definition Format_body (stream : basic_stringstream) (str : string)
    (parameter_values : list string) : outcome string :=
  st <- Format_while (loop_budget str) str parameter_values
          {| scan_last_pos := 0; scan_arg_counter := 0;
             scan_stream := stream |} ;;
  rest <- substr str (scan_last_pos st)
            (wrap (size str - scan_last_pos st)) ;;
  Ok (rdbuf (put (scan_stream st) rest)).

(** The call [Format(str, args...)] on a [std::string].  Without arguments
    the overload [Format(const std::basic_string<T>&)] is the more
    specialized one and is selected: it returns its argument.  With
    arguments the general overload makes a stream, assigns the settings,
    renders the arguments and scans the template, all on that one stream.
    The stream is made with the global locale, which [imbue] replaces at
    once; it is made here with the locale that [imbue] gives it.  The
    overload on [const T*] builds a [std::string] and makes the same
    call. *)
Definition Format (f : Formatter) (str : string) (args : list value)
    : outcome string :=
  match args with
  | [] => Ok str
  | _ :: _ =>
      let stream := basic_stringstream_init (m_ptr_locale f) in
      let stream := AssignStreamSettings f stream in
      match GetOutputParameters stream args with
      | Some (parameter_values, stream) =>
          Format_body stream str parameter_values
      | None => Rejected
      end
  end.

(** The stream of [Format] when it reaches [GetOutputParameters]. *)
Definition stream_of (f : Formatter) : basic_stringstream :=
  AssignStreamSettings f (basic_stringstream_init (m_ptr_locale f)).

(** Arguments of the example program: a C string, or an object of a class
    whose [operator<<] inserts a text, has an [operator<<] and no
    iterators. *)
Definition shown (text : string) : value :=
  Object (Some (insert_string text)).

(** A container of the library with bidirectional iterators, such as
    [std::vector], [std::list], [std::set] or [std::map], of elements of the
    type [value_type]. *)
Definition container (value_type : type) (elements : list value) : value :=
  Sequence None value_type true true elements.

Definition unknown : value := Object None.

(** [std::setw(n)]: its [operator<<] calls [os.width(n)] and writes
    nothing. *)
Definition setw (n : streamsize) : value :=
  Object (Some (fun io => ("", width_set n io))).

(** An object whose [operator<<] calls [os.setstate(std::ios_base::failbit)]
    and writes nothing. *)
Definition failing : value :=
  Object (Some (fun io => ("", setstate_failbit io))).

(** [Formatter formatter;] in a program that has not changed the global
    locale. *)
Definition formatter : Formatter := Formatter_default "C".

(** ** What the scan is meant to compute *)

(** The character that starts the mask also screens it. *)
Definition is_escape (c : ascii) : bool := Ascii.eqb c "%".

(** The text inserted at the next substitution site. *)
Definition next_parameter (params : list string) : string :=
  match params with
  | p :: _ => p
  | [] => "?"
  end.

(** The template read character by character.  [after_escape] tells
    whether the character just before [s] in the template is [%]; at the
    start of the template there is none.  An occurrence of the mask that
    does not follow a [%] takes the next parameter; a [%] that is followed
    by the mask is dropped, and the mask after it is copied. *)
Fixpoint substitute (after_escape : bool) (s : string) (params : list string)
    : string :=
  match s with
  | EmptyString => EmptyString
  | String c t =>
      if String.prefix SUBSTITUTE_MASK s then
        if after_escape then String c (substitute (is_escape c) t params)
        else
          match t with
          | String _ r =>
              next_parameter params ++ substitute false r (tl params)
          | EmptyString => String c EmptyString
          end
      else if is_escape c && String.prefix SUBSTITUTE_MASK t
      then substitute true t params
      else String c (substitute (is_escape c) t params)
  end.

(** The number of occurrences of the mask in [s] that do not follow a [%]. *)
Fixpoint count_unescaped (after_escape : bool) (s : string) : nat :=
  match s with
  | EmptyString => O
  | String c t =>
      ((if String.prefix SUBSTITUTE_MASK s && negb after_escape
        then 1 else 0)
       + count_unescaped (is_escape c) t)%nat
  end.

(** The same count, by positions: [p] is a substitution site of [s] when the
    mask occurs at [p] and either [p] is [0] or the character at [p - 1] is
    not [%]. *)
Definition occurs_at (s : string) (p : nat) : bool :=
  String.eqb (String.substring p 2 s) SUBSTITUTE_MASK.

Definition escaped_at (s : string) (p : nat) : bool :=
  match p with
  | O => false
  | S q => match String.get q s with
           | Some c => is_escape c
           | None => false
           end
  end.

Definition substitution_sites (s : string) : list nat :=
  filter (fun p => occurs_at s p && negb (escaped_at s p))
         (seq 0 (String.length s)).

(** The suffix of [s] from position [n] on. *)
Fixpoint skip (n : nat) (s : string) : string :=
  match n, s with
  | O, _ => s
  | S n', String _ s' => skip n' s'
  | S _, EmptyString => EmptyString
  end.

(** Whether the occurrence at [j] follows a [%], for a string that itself
    follows a [%] or not. *)
Definition escaped_from (after_escape : bool) (s : string) (j : nat) : bool :=
  match j with
  | O => after_escape
  | S _ => escaped_at s j
  end.

(** ** The arguments as texts *)

(** The texts of the arguments, written one after the other to the stream,
    which is emptied after each of them and keeps its formatting state, and
    the stream after the last of them. *)
Fixpoint rendered (stream : basic_stringstream) (args : list value)
    : option (list string * basic_stringstream) :=
  match args with
  | [] => Some ([], stream)
  | t :: args' =>
      match OutputValue t stream with
      | Some stream =>
          match rendered (str_set stream "") args' with
          | Some (texts, stream') => Some (rdbuf stream :: texts, stream')
          | None => None
          end
      | None => None
      end
  end.

(** The text of the first insertion of the scan: the characters in front of
    the first occurrence of the mask, without the [%] that screens it, or
    the whole template when the mask does not occur. *)
Definition first_piece (str : string) : string :=
  match String.index 0 SUBSTITUTE_MASK str with
  | Some j =>
      String.substring 0 (if escaped_from false str j then j - 1 else j) str
  | None => str
  end.

(** What the stream holds when [out] has been written to it in the pieces
    of the scan of [str], from the formatting state [io] and no characters:
    the first piece takes the pending width, and a stream that is not good
    takes nothing. *)
Definition on_stream (io : ios) (str out : string) : string :=
  if ios_good io
  then padded io (first_piece str)
       ++ skip (String.length (first_piece str)) out
  else "".

(** The result of the general overload on the stream as the arguments
    left it, when the scan of the texts alone gives [scanned]. *)
Definition written (stream : basic_stringstream) (str : string)
    (scanned : outcome string) : outcome string :=
  out <- scanned ;; Ok (on_stream (basic_ios stream) str out).

(** The value of [arg_counter] when the loop of [Format] exits, on the
    stream as the arguments left it. *)
Definition arguments_inserted (stream : basic_stringstream) (str : string)
    (parameter_values : list string) : outcome Z :=
  st <- Format_while (loop_budget str) str parameter_values
          {| scan_last_pos := 0; scan_arg_counter := 0;
             scan_stream := stream |} ;;
  Ok (scan_arg_counter st).

(** ** Reference descriptions *)

(** The template with every occurrence of the mask that does not follow a
    [%] replaced by the next argument text, and every other character kept
    as it is. *)
Fixpoint replace_unescaped (after_escape : bool) (s : string)
    (args : list string) : string :=
  match s with
  | EmptyString => EmptyString
  | String c t =>
      if String.prefix SUBSTITUTE_MASK s && negb after_escape then
        match t with
        | String _ r =>
            next_parameter args ++ replace_unescaped false r (tl args)
        | EmptyString => String c EmptyString
        end
      else String c (replace_unescaped (is_escape c) t args)
  end.

(** The argument texts as a lenient call uses them: the ones beyond the
    [n] substitution sites are dropped, and missing ones are the unknown
    marker. *)
Definition lenient_arguments (n : nat) (params : list string) : list string :=
  firstn n params ++ repeat "?" (n - List.length params).

(** The literal pieces of a template, between its substitution sites, as
    they are written to the output. *)
Definition cons_head (c : ascii) (pieces : list string) : list string :=
  match pieces with
  | [] => [String c EmptyString]
  | l :: ls => String c l :: ls
  end.

Fixpoint literals (after_escape : bool) (s : string) : list string :=
  match s with
  | EmptyString => [EmptyString]
  | String c t =>
      if String.prefix SUBSTITUTE_MASK s then
        if after_escape then cons_head c (literals (is_escape c) t)
        else
          match t with
          | String _ r => EmptyString :: literals false r
          | EmptyString => [String c EmptyString]
          end
      else if is_escape c && String.prefix SUBSTITUTE_MASK t
      then literals true t
      else cons_head c (literals (is_escape c) t)
  end.

(** Literal pieces with one text between each two of them; the texts are
    copied as they are and the unknown marker stands for a missing one. *)
Fixpoint weave (pieces : list string) (params : list string) : string :=
  match pieces with
  | [] => EmptyString
  | [l] => l
  | l :: ls => l ++ next_parameter params ++ weave ls (tl params)
  end.

(** Whether the last character of [s] is [%]. *)
Fixpoint ends_with_escape (s : string) : bool :=
  match s with
  | EmptyString => false
  | String c EmptyString => is_escape c
  | String _ t => ends_with_escape t
  end.

(** The rules of the dispatch in the order boolean, text, pair, custom
    conversion, sequence, unknown; the rule of a value is the first one
    whose overload is viable for it. *)
Definition priority_order : list overload :=
  [ov_bool; ov_basic_string; ov_pair; ov_inserter; ov_sequence; ov_ellipsis].

Definition highest_priority (T : type) : option overload :=
  List.find (viable T) priority_order.

(** A type with both an [operator<<] and iterators that is neither a
    string, a pair nor [bool]. *)
Definition inserter_and_sequence (T : type) : bool :=
  match T with
  | sequence_type true _ _ _ => true
  | _ => false
  end.

(** The member functions that change a setting, and what a call of one
    gives back. *)
Inductive setter : Type :=
| call_Flags (flags : ios_base.fmtflags)
| call_SetF (flags : ios_base.fmtflags)
| call_SetF_mask (flags mask : ios_base.fmtflags)
| call_UnSetF (flags : ios_base.fmtflags)
| call_Imbue (loc : locale)
| call_Precision (prec : streamsize).

Inductive returned : Type :=
| returns_flags (flags : ios_base.fmtflags)
| returns_locale (loc : locale)
| returns_precision (prec : streamsize)
| returns_void.

Definition call (s : setter) (f : Formatter) : returned * Formatter :=
  match s with
  | call_Flags flags =>
      let (old, f') := Flags_set flags f in (returns_flags old, f')
  | call_SetF flags =>
      let (old, f') := SetF flags f in (returns_flags old, f')
  | call_SetF_mask flags mask =>
      let (old, f') := SetF_mask flags mask f in (returns_flags old, f')
  | call_UnSetF flags =>
      let (_, f') := UnSetF flags f in (returns_void, f')
  | call_Imbue loc =>
      let (old, f') := Imbue loc f in (returns_locale old, f')
  | call_Precision prec =>
      let (old, f') := Precision_set prec f in (returns_precision old, f')
  end.

(** The setting that a setter acts on, as it is in [f]. *)
Definition held_before (s : setter) (f : Formatter) : returned :=
  match s with
  | call_Flags _ | call_SetF _ | call_SetF_mask _ _ | call_UnSetF _ =>
      returns_flags (Flags f)
  | call_Imbue _ => returns_locale (Getloc f)
  | call_Precision _ => returns_precision (Precision f)
  end.


(** Whether a [%] comes just before a string that follows [pre], when a
    [%] comes just before [pre] or not. *)
Definition follows_escape (after_escape : bool) (pre : string) : bool :=
  match pre with
  | EmptyString => after_escape
  | String _ _ => ends_with_escape pre
  end.

(** [pre] and [s] can be scanned one after the other: no occurrence of the
    mask starts on the last character of [pre]. *)
Definition separate (pre s : string) : bool :=
  negb (ends_with_escape pre)
  || negb (String.prefix "?" s || String.prefix SUBSTITUTE_MASK s).


(** [s] without its last character. *)
Fixpoint chop (s : string) : string :=
  match s with
  | EmptyString => EmptyString
  | String _ EmptyString => EmptyString
  | String c t => String c (chop t)
  end.


(** The stream with the characters [b] in front of those it holds. *)
Definition prefixed (b : string) (stream : basic_stringstream)
    : basic_stringstream :=
  {| rdbuf := b ++ rdbuf stream; basic_ios := basic_ios stream |}.

(** A call appends to the stream, and what it appends and the state it
    leaves do not depend on the characters that the stream holds. *)
Definition appends (t : value) : Prop :=
  forall (b : string) (stream : basic_stringstream),
    OutputValue t (prefixed b stream)
    = option_map (prefixed b) (OutputValue t stream).

(** On a stream in the state [io], the call for [t] writes [text] and
    leaves the state as it is. *)
Definition written_as (io : ios) (t : value) (text : string) : Prop :=
  OutputValue t {| rdbuf := ""; basic_ios := io |}
  = Some {| rdbuf := text; basic_ios := io |}.

(** The substitution sites of a string that follows a [%] or not. *)
Definition sites_from (after_escape : bool) (s : string) : list nat :=
  filter (fun p => occurs_at s p && negb (escaped_from after_escape s p))
         (seq 0 (String.length s)).


(** ** Further parts of the class *)

(** [std::basic_string<T> str(seq)]: the characters at [seq] up to the first
    null character.  [seq] stands for the characters found at the pointer,
    terminator included. *)
Fixpoint basic_string_of (seq : string) : string :=
  match seq with
  | EmptyString => EmptyString
  | String c t =>
      if Ascii.eqb c Ascii.zero then EmptyString
      else String c (basic_string_of t)
  end.

(** The overload [Format(const T* seq, Args... args)]. *)
Definition Format_seq (f : Formatter) (seq : string) (args : list value)
    : outcome string :=
  let str := basic_string_of seq in
  Format f str args.

(** * Proofs *)

Lemma wrap_small (z : Z) : 0 <= z < modulus -> wrap z = z.
Proof. intros H. unfold wrap. now apply Z.mod_small. Qed.

Lemma npos_value : npos = 18446744073709551615.
Proof. reflexivity. Qed.

(** ** Strings: positions and suffixes *)

Section StringFacts.

Local Open Scope nat_scope.

Lemma skip_length (n : nat) (s : string) :
  String.length (skip n s) = String.length s - n.
Proof.
  revert s; induction n as [|n IH]; intros s; simpl.
  - lia.
  - destruct s as [|c s]; simpl; [reflexivity | apply IH].
Qed.

Lemma skip_all (n : nat) (s : string) :
  String.length s <= n -> skip n s = EmptyString.
Proof.
  revert s; induction n as [|n IH]; intros [|c s]; simpl; intros H;
    try reflexivity; try lia.
  apply IH; lia.
Qed.

Lemma skip_skip (a b : nat) (s : string) :
  skip a (skip b s) = skip (b + a) s.
Proof.
  revert s; induction b as [|b IH]; intros s; simpl.
  - reflexivity.
  - destruct s as [|c s].
    + destruct a; reflexivity.
    + apply IH.
Qed.

Lemma substring_skip (n m : nat) (s : string) :
  String.substring n m s = String.substring 0 m (skip n s).
Proof.
  revert s; induction n as [|n IH]; intros s; simpl.
  - reflexivity.
  - destruct s as [|c s].
    + destruct m; reflexivity.
    + apply IH.
Qed.

Lemma substring_0_0 (s : string) : String.substring 0 0 s = EmptyString.
Proof. destruct s; reflexivity. Qed.

Lemma substring_whole (s : string) :
  String.substring 0 (String.length s) s = s.
Proof. induction s as [|c s IH]; simpl; [reflexivity | now rewrite IH]. Qed.

Lemma get_skip (n j : nat) (s : string) :
  String.get (n + j) s = String.get j (skip n s).
Proof.
  revert s; induction n as [|n IH]; intros s; simpl.
  - reflexivity.
  - destruct s as [|c s]; simpl.
    + destruct j; reflexivity.
    + apply IH.
Qed.

Lemma index_skip (pat : string) (n : nat) (s : string) :
  n <= String.length s ->
  String.index n pat s
  = option_map (Nat.add n) (String.index 0 pat (skip n s)).
Proof.
  revert s; induction n as [|n IH]; intros s Hn.
  - simpl skip. destruct (String.index 0 pat s); reflexivity.
  - destruct s as [|c s]; simpl in Hn; [lia|].
    change (String.index (S n) pat (String c s))
      with (match String.index n pat s with
            | Some k => Some (S k) | None => None end).
    rewrite IH by lia. simpl skip.
    destruct (String.index 0 pat (skip n s)); reflexivity.
Qed.

Lemma prefix_mask (s : string) :
  String.prefix SUBSTITUTE_MASK s = true <->
  exists r, s = String "%" (String "?" r).
Proof.
  unfold SUBSTITUTE_MASK. split.
  - destruct s as [|c [|d r]]; cbn [String.prefix]; try discriminate.
    + destruct (ascii_dec "%" c); discriminate.
    + destruct (ascii_dec "%" c) as [<-|]; [|discriminate].
      destruct (ascii_dec "?" d) as [<-|]; [|discriminate].
      intros _. now exists r.
  - intros [r ->]. destruct r; reflexivity.
Qed.

Lemma prefix_mask_head (c : ascii) (t : string) :
  String.prefix SUBSTITUTE_MASK (String c t) = true ->
  is_escape c = true /\ String.prefix SUBSTITUTE_MASK t = false.
Proof.
  intros H. apply prefix_mask in H. destruct H as [r H].
  inversion H; subst. split; reflexivity.
Qed.

(** [index 0] either finds the mask at the head or looks further. *)
Lemma index_mask_cons (c : ascii) (t : string) :
  String.index 0 SUBSTITUTE_MASK (String c t)
  = if String.prefix SUBSTITUTE_MASK (String c t) then Some 0
    else option_map S (String.index 0 SUBSTITUTE_MASK t).
Proof.
  change (String.index 0 SUBSTITUTE_MASK (String c t))
    with (if String.prefix SUBSTITUTE_MASK (String c t) then Some 0
          else match String.index 0 SUBSTITUTE_MASK t with
               | Some k => Some (S k) | None => None end).
  destruct (String.prefix SUBSTITUTE_MASK (String c t)); [reflexivity|].
  destruct (String.index 0 SUBSTITUTE_MASK t); reflexivity.
Qed.

Lemma index_mask_empty : String.index 0 SUBSTITUTE_MASK EmptyString = None.
Proof. reflexivity. Qed.

(** A match leaves room for the two characters of the mask. *)
Lemma index_mask_bound (s : string) (j : nat) :
  String.index 0 SUBSTITUTE_MASK s = Some j -> j + 2 <= String.length s.
Proof.
  revert j; induction s as [|c t IH]; intros j.
  - discriminate.
  - rewrite index_mask_cons.
    destruct (String.prefix SUBSTITUTE_MASK (String c t)) eqn:P.
    + intros [= <-]. apply prefix_mask in P. destruct P as [r ->].
      simpl. lia.
    + destruct (String.index 0 SUBSTITUTE_MASK t) as [k|]; simpl;
        [|discriminate].
      intros [= <-]. specialize (IH k eq_refl). simpl. lia.
Qed.

(** The character after a match position is the [?] of the mask. *)
Lemma index_mask_second (s : string) (j : nat) :
  String.index 0 SUBSTITUTE_MASK s = Some j ->
  String.get (S j) s = Some "?"%char.
Proof.
  revert j; induction s as [|c t IH]; intros j.
  - discriminate.
  - rewrite index_mask_cons.
    destruct (String.prefix SUBSTITUTE_MASK (String c t)) eqn:P.
    + intros [= <-]. apply prefix_mask in P. destruct P as [r P].
      inversion P; subst. reflexivity.
    + destruct (String.index 0 SUBSTITUTE_MASK t) as [k|]; simpl;
        [|discriminate].
      intros [= <-]. apply (IH k eq_refl).
Qed.

End StringFacts.

(** ** The scan, one occurrence at a time *)

Section Substitute.

Local Open Scope nat_scope.

Lemma append_assoc (a b c : string) : (a ++ b) ++ c = a ++ (b ++ c).
Proof. induction a as [|x a IH]; simpl; [reflexivity | now rewrite IH]. Qed.

Lemma append_nil_r (a : string) : a ++ "" = a.
Proof. induction a as [|x a IH]; simpl; [reflexivity | now rewrite IH]. Qed.

Lemma append_length (a b : string) :
  String.length (a ++ b) = String.length a + String.length b.
Proof. induction a as [|x a IH]; simpl; [reflexivity | now rewrite IH]. Qed.

Lemma substitute_cons (a : bool) (c : ascii) (t : string)
    (ps : list string) :
  substitute a (String c t) ps
  = if String.prefix SUBSTITUTE_MASK (String c t) then
      if a then String c (substitute (is_escape c) t ps)
      else match t with
           | String _ r => next_parameter ps ++ substitute false r (tl ps)
           | EmptyString => String c EmptyString
           end
    else if is_escape c && String.prefix SUBSTITUTE_MASK t
    then substitute true t ps
    else String c (substitute (is_escape c) t ps).
Proof. reflexivity. Qed.

Lemma count_unescaped_cons (a : bool) (c : ascii) (t : string) :
  count_unescaped a (String c t)
  = (if String.prefix SUBSTITUTE_MASK (String c t) && negb a then 1 else 0)
    + count_unescaped (is_escape c) t.
Proof. reflexivity. Qed.

Lemma index_none_prefix (s : string) :
  String.index 0 SUBSTITUTE_MASK s = None ->
  String.prefix SUBSTITUTE_MASK s = false.
Proof.
  destruct s as [|c t]; [reflexivity|].
  rewrite index_mask_cons.
  destruct (String.prefix SUBSTITUTE_MASK (String c t));
    [discriminate | reflexivity].
Qed.

Lemma index_later_prefix (s : string) (j : nat) :
  String.index 0 SUBSTITUTE_MASK s = Some (S j) ->
  String.prefix SUBSTITUTE_MASK s = false.
Proof.
  destruct s as [|c t]; [reflexivity|].
  rewrite index_mask_cons.
  destruct (String.prefix SUBSTITUTE_MASK (String c t));
    [discriminate | reflexivity].
Qed.

(** A string without the mask is copied. *)
Lemma substitute_no_mask (a : bool) (s : string) (ps : list string) :
  String.index 0 SUBSTITUTE_MASK s = None -> substitute a s ps = s.
Proof.
  revert a; induction s as [|c t IH]; intros a H; [reflexivity|].
  pose proof (index_none_prefix _ H) as P.
  rewrite substitute_cons, P.
  rewrite index_mask_cons, P in H.
  destruct (String.index 0 SUBSTITUTE_MASK t) eqn:E; [discriminate|].
  rewrite (index_none_prefix _ E), andb_false_r.
  now rewrite IH.
Qed.

Lemma count_unescaped_no_mask (a : bool) (s : string) :
  String.index 0 SUBSTITUTE_MASK s = None -> count_unescaped a s = 0.
Proof.
  revert a; induction s as [|c t IH]; intros a H; [reflexivity|].
  pose proof (index_none_prefix _ H) as P.
  rewrite count_unescaped_cons, P.
  rewrite index_mask_cons, P in H.
  destruct (String.index 0 SUBSTITUTE_MASK t) eqn:E; [discriminate|].
  now rewrite IH.
Qed.

(** The mask at the head of the string. *)
Lemma substitute_here (a : bool) (r : string) (ps : list string) :
  substitute a (String "%" (String "?" r)) ps
  = if a then SUBSTITUTE_MASK ++ substitute false r ps
    else next_parameter ps ++ substitute false r (tl ps).
Proof.
  rewrite substitute_cons.
  assert (P : String.prefix SUBSTITUTE_MASK (String "%" (String "?" r))
              = true) by (apply prefix_mask; now exists r).
  rewrite P. destruct a; [|reflexivity].
  rewrite substitute_cons.
  destruct (String.prefix SUBSTITUTE_MASK (String "?" r)) eqn:Q.
  - apply prefix_mask in Q. destruct Q as [r' Q]. discriminate Q.
  - reflexivity.
Qed.

(** The first occurrence of the mask in [s], at [j]: what comes before it
    is copied, without its last character when that is a [%]. *)
Lemma substitute_at (a : bool) (s : string) (j : nat) (ps : list string) :
  String.index 0 SUBSTITUTE_MASK s = Some j ->
  substitute a s ps
  = if escaped_from a s j
    then String.substring 0 (j - 1) s ++ SUBSTITUTE_MASK
         ++ substitute false (skip (j + 2) s) ps
    else String.substring 0 j s ++ next_parameter ps
         ++ substitute false (skip (j + 2) s) (tl ps).
Proof.
  revert a j; induction s as [|c t IH]; intros a j H; [discriminate|].
  rewrite index_mask_cons in H.
  destruct (String.prefix SUBSTITUTE_MASK (String c t)) eqn:P.
  - injection H as <-. apply prefix_mask in P. destruct P as [r P].
    inversion P; subst. rewrite substitute_here. simpl escaped_from.
    destruct a; reflexivity.
  - destruct (String.index 0 SUBSTITUTE_MASK t) as [j'|] eqn:E;
      [|discriminate].
    simpl in H. injection H as <-.
    rewrite substitute_cons, P.
    assert (Esc : escaped_from a (String c t) (S j')
                  = escaped_from (is_escape c) t j').
    { destruct j'; reflexivity. }
    rewrite Esc. simpl skip.
    destruct (is_escape c && String.prefix SUBSTITUTE_MASK t) eqn:B.
    + apply andb_prop in B. destruct B as [B1 B2].
      assert (j' = 0) as ->.
      { destruct j'; [reflexivity|].
        rewrite (index_later_prefix _ _ E) in B2. discriminate. }
      rewrite (IH true 0 eq_refl). simpl escaped_from. rewrite B1.
      simpl Nat.sub. now rewrite !substring_0_0.
    + rewrite (IH (is_escape c) j' eq_refl).
      destruct (escaped_from (is_escape c) t j') eqn:F.
      * destruct j' as [|q].
        -- simpl in F. rewrite F in B. simpl in B.
           apply index_mask_bound in E as Hb.
           destruct t as [|d t']; [simpl in Hb; lia|].
           rewrite index_mask_cons in E.
           destruct (String.prefix SUBSTITUTE_MASK (String d t'));
             [discriminate B|].
           destruct (String.index 0 SUBSTITUTE_MASK t'); discriminate E.
        -- replace (S (S q) - 1) with (S q) by lia.
           replace (S q - 1) with q by lia. reflexivity.
      * reflexivity.
Qed.

Lemma count_unescaped_at (a : bool) (s : string) (j : nat) :
  String.index 0 SUBSTITUTE_MASK s = Some j ->
  count_unescaped a s
  = (if escaped_from a s j then 0 else 1)
    + count_unescaped false (skip (j + 2) s).
Proof.
  revert a j; induction s as [|c t IH]; intros a j H; [discriminate|].
  rewrite index_mask_cons in H. rewrite count_unescaped_cons.
  destruct (String.prefix SUBSTITUTE_MASK (String c t)) eqn:P.
  - injection H as <-. apply prefix_mask in P. destruct P as [r P].
    inversion P; subst. simpl escaped_from. simpl skip.
    rewrite count_unescaped_cons.
    destruct (String.prefix SUBSTITUTE_MASK (String "?" r)) eqn:Q.
    + apply prefix_mask in Q. destruct Q as [r' Q]. discriminate Q.
    + destruct a; reflexivity.
  - destruct (String.index 0 SUBSTITUTE_MASK t) as [j'|] eqn:E;
      [|discriminate].
    simpl in H. injection H as <-.
    assert (Esc : escaped_from a (String c t) (S j')
                  = escaped_from (is_escape c) t j').
    { destruct j'; reflexivity. }
    rewrite Esc. simpl skip. rewrite (IH (is_escape c) j' eq_refl). reflexivity.
Qed.

End Substitute.

(** ** The loop computes the substitution *)

Section Scan.

Variable str : string.
Variable ps : list string.

(** The template is a [std::string]: its size is below [npos]. *)
Hypothesis str_fits : size str < npos.

Lemma get_some (s : string) (p : nat) :
  (p < String.length s)%nat -> exists c, String.get p s = Some c.
Proof.
  revert p; induction s as [|c s IH]; intros p H; simpl in H; [lia|].
  destruct p as [|p]; simpl.
  - now exists c.
  - apply IH. lia.
Qed.

Lemma find_from (lp : nat) :
  (lp <= String.length str)%nat ->
  find str SUBSTITUTE_MASK (Z.of_nat lp)
  = match String.index 0 SUBSTITUTE_MASK (skip lp str) with
    | Some j => Z.of_nat (lp + j)
    | None => npos
    end.
Proof.
  intros H. unfold find. rewrite Nat2Z.id, index_skip by assumption.
  destruct (String.index 0 SUBSTITUTE_MASK (skip lp str)); reflexivity.
Qed.

Lemma substr_from (lp n : nat) :
  (lp + n <= String.length str)%nat ->
  substr str (Z.of_nat lp) (wrap (Z.of_nat n))
  = Ok (String.substring 0 n (skip lp str)).
Proof.
  intros H. unfold substr, size in *.
  assert (L : (Z.of_nat (String.length str) <? Z.of_nat lp) = false)
    by (apply Z.ltb_ge; lia).
  rewrite L, wrap_small by (unfold npos in str_fits; lia).
  rewrite Z.min_l by lia. rewrite !Nat2Z.id.
  now rewrite substring_skip.
Qed.

Lemma at_from (p : nat) (c : ascii) :
  String.get p str = Some c -> at_ str (wrap (Z.of_nat p)) = Ok c.
Proof.
  intros H. unfold at_.
  assert (p < String.length str)%nat.
  { clear str_fits. revert p H. induction str as [|d s IH]; intros p H;
      [discriminate|].
    destruct p; simpl in *; [lia|]. apply IH in H. lia. }
  rewrite wrap_small by (unfold size, npos in str_fits; lia).
  now rewrite Nat2Z.id, H.
Qed.

Lemma skipn_next (k : nat) :
  (k < List.length ps)%nat ->
  skipn k ps = nth k ps "" :: skipn (S k) ps.
Proof.
  revert k; induction ps as [|p l IH]; intros k H; simpl in H; [lia|].
  destruct k as [|k]; [reflexivity|].
  change (skipn k l = nth k l "" :: skipn (S k) l). apply IH. lia.
Qed.

(** What the test [pos > 0 && str.at(pos - 1) == '%'] comes to at the
    first match after [lp]. *)
Lemma screened_from (lp j : nat) :
  (lp + j < String.length str)%nat ->
  escaped_at str lp = false ->
  (if 0 <? Z.of_nat (lp + j)
   then c <- at_ str (wrap (Z.of_nat (lp + j) - 1)) ;;
        Ok (Ascii.eqb c "%")
   else Ok false)
  = Ok (escaped_from false (skip lp str) j).
Proof.
  intros Hlt Hesc.
  destruct (lp + j)%nat as [|m] eqn:E.
  - assert (j = 0)%nat as -> by lia. reflexivity.
  - assert (L : (0 <? Z.of_nat (S m)) = true) by (apply Z.ltb_lt; lia).
    rewrite L. replace (Z.of_nat (S m) - 1) with (Z.of_nat m) by lia.
    destruct (get_some str m ltac:(lia)) as [c Hc].
    rewrite (at_from _ _ Hc). cbn [bind]. f_equal.
    destruct j as [|q]; simpl escaped_from.
    + assert (lp = S m) as -> by lia.
      unfold escaped_at in Hesc. rewrite Hc in Hesc. exact Hesc.
    + unfold escaped_at. rewrite <- get_skip.
      replace (lp + q)%nat with m by lia. now rewrite Hc.
Qed.

(** The loop from a state it can reach: [lp] is [0] or just after a
    match, and every inserted argument has taken a match of its own. *)
Lemma Format_loop_correct (fuel : nat) :
  forall (lp k : nat) (out : string),
    (lp <= String.length str)%nat ->
    escaped_at str lp = false ->
    (k <= List.length ps)%nat ->
    (2 * k <= lp)%nat ->
    (String.length str - lp < fuel)%nat ->
    exists (lp' : nat) (out' : string),
      Format_loop fuel str ps
        {| last_pos := Z.of_nat lp; arg_counter := Z.of_nat k;
           stream := out |}
      = Ok {| last_pos := Z.of_nat lp';
              arg_counter :=
                Z.of_nat (Nat.min (List.length ps)
                            (k + count_unescaped false (skip lp str)));
              stream := out' |}
      /\ (lp' <= String.length str)%nat
      /\ out' ++ skip lp' str
         = out ++ substitute false (skip lp str) (skipn k ps).
Proof.
  induction fuel as [|fuel IH]; intros lp k out Hlp Hesc Hk Hk2 Hfuel;
    [lia|].
  cbn [Format_loop last_pos arg_counter stream].
  rewrite find_from by assumption.
  destruct (String.index 0 SUBSTITUTE_MASK (skip lp str)) as [j|] eqn:E.
  - pose proof (index_mask_bound _ _ E) as Hb. rewrite skip_length in Hb.
    pose proof (index_mask_second _ _ E) as Hq.
    change (S j) with (1 + j)%nat in Hq. rewrite <- get_skip in Hq.
    assert (Hfit : Z.of_nat (String.length str) < npos) by exact str_fits.
    assert (N : (Z.of_nat (lp + j) =? npos) = false)
      by (apply Z.eqb_neq; lia).
    rewrite N, screened_from by (assumption || lia). cbn [bind].
    assert (Hnext : wrap (Z.of_nat (lp + j) + strlen SUBSTITUTE_MASK)
                    = Z.of_nat (lp + j + 2)).
    { change (strlen SUBSTITUTE_MASK) with 2.
      rewrite wrap_small by (unfold npos in Hfit; lia). lia. }
    assert (Hesc' : escaped_at str (lp + j + 2) = false).
    { replace (lp + j + 2)%nat with (S (lp + j + 1)) by lia.
      unfold escaped_at.
      replace (lp + j + 1)%nat with (lp + (1 + j))%nat by lia.
      rewrite get_skip. rewrite get_skip in Hq. now rewrite Hq. }
    assert (Hskip : skip (j + 2) (skip lp str) = skip (lp + j + 2) str).
    { rewrite skip_skip. f_equal. lia. }
    rewrite Hnext, (count_unescaped_at _ _ _ E),
      (substitute_at _ _ _ _ E), Hskip.
    destruct (escaped_from false (skip lp str) j) eqn:F.
    + assert (1 <= j)%nat by (destruct j; [discriminate F | lia]).
      replace (Z.of_nat (lp + j) - Z.of_nat lp - 1)
        with (Z.of_nat (j - 1)) by lia.
      rewrite substr_from by lia. cbn [bind].
      destruct (IH (lp + j + 2)%nat k
                  (out ++ String.substring 0 (j - 1) (skip lp str)
                   ++ SUBSTITUTE_MASK))
        as (lp' & out' & H1 & H2 & H3); try assumption; try lia.
      exists lp', out'. rewrite H1, H3, !append_assoc.
      repeat split; try assumption.
    + replace (Z.of_nat (lp + j) - Z.of_nat lp) with (Z.of_nat j) by lia.
      rewrite substr_from by lia. cbn [bind].
      destruct (Z.of_nat k <? Z.of_nat (List.length ps)) eqn:L.
      * apply Z.ltb_lt in L.
        assert (Hinc : wrap (Z.of_nat k + 1) = Z.of_nat (S k)).
        { rewrite wrap_small by (unfold npos in Hfit; lia). lia. }
        rewrite Hinc, Nat2Z.id, (skipn_next k) by lia.
        destruct (IH (lp + j + 2)%nat (S k)
                    (out ++ String.substring 0 j (skip lp str)
                     ++ nth k ps ""))
          as (lp' & out' & H1 & H2 & H3); try assumption; try lia.
        exists lp', out'. rewrite H1, H3, !append_assoc.
        repeat split; try assumption.
        do 2 f_equal. lia.
      * apply Z.ltb_ge in L.
        rewrite (skipn_all2 ps) by lia.
        destruct (IH (lp + j + 2)%nat k
                    (out ++ String.substring 0 j (skip lp str) ++ "?"))
          as (lp' & out' & H1 & H2 & H3); try assumption; try lia.
        exists lp', out'. rewrite H1, H3, !append_assoc.
        rewrite (skipn_all2 ps) by lia.
        repeat split; try assumption.
        do 2 f_equal. lia.
  - rewrite Z.eqb_refl. exists lp, out.
    rewrite (count_unescaped_no_mask _ _ E), (substitute_no_mask _ _ _ E).
    repeat split; try assumption.
    do 2 f_equal. lia.
Qed.

End Scan.

(** ** The general overload *)

Section FormatScan.

Variable str : string.
Hypothesis str_fits : size str < npos.

Lemma Format_loop_initial (ps : list string) :
  exists (lp' : nat) (out' : string),
    Format_loop (loop_budget str) str ps
      {| last_pos := 0; arg_counter := 0; stream := "" |}
    = Ok {| last_pos := Z.of_nat lp';
            arg_counter :=
              Z.of_nat (Nat.min (List.length ps)
                          (count_unescaped false str));
            stream := out' |}
    /\ (lp' <= String.length str)%nat
    /\ out' ++ skip lp' str = substitute false str ps.
Proof.
  destruct (Format_loop_correct str ps str_fits (loop_budget str)
              0%nat 0%nat "")
    as (lp' & out' & H1 & H2 & H3);
    try reflexivity; try (unfold loop_budget; lia).
  exists lp', out'. repeat split; assumption.
Qed.

(** The scan returns, and what it returns is the substitution. *)
Lemma Format_scan_correct (ps : list string) :
  Format_scan str ps = Ok (substitute false str ps).
Proof.
  destruct (Format_loop_initial ps) as (lp' & out' & H1 & H2 & H3).
  unfold Format_scan. rewrite H1. cbn [bind last_pos stream].
  replace (size str - Z.of_nat lp')
    with (Z.of_nat (String.length str - lp')) by (unfold size; lia).
  rewrite substr_from by (assumption || lia). cbn [bind].
  rewrite <- H3. do 2 f_equal.
  rewrite <- (skip_length lp' str). apply substring_whole.
Qed.

Lemma arguments_consumed_correct (ps : list string) :
  arguments_consumed str ps
  = Ok (Z.of_nat (Nat.min (List.length ps) (count_unescaped false str))).
Proof.
  destruct (Format_loop_initial ps) as (lp' & out' & H1 & H2 & H3).
  unfold arguments_consumed. now rewrite H1.
Qed.

End FormatScan.

(** ** The scan on the stream of [Format] *)

Section StreamScan.

Lemma size_nonneg (s : string) : 0 <= size s.
Proof. unfold size. lia. Qed.

Lemma padded_no_width (io : ios) (s : string) :
  ios_width io <= 0 -> padded io s = s.
Proof.
  intros H. unfold padded.
  assert (L : (size s <? ios_width io) = false)
    by (apply Z.ltb_ge; pose proof (size_nonneg s); lia).
  now rewrite L.
Qed.

Lemma width_0_idem (io : ios) : ios_width io = 0 -> width_0 io = io.
Proof. destruct io; cbn. now intros ->. Qed.

(** On a good stream without a pending width, an insertion of characters
    appends them and leaves the state as it is. *)
Lemma put_plain (stream : basic_stringstream) (x : string) :
  ios_good (basic_ios stream) = true ->
  ios_width (basic_ios stream) = 0 ->
  put stream x
  = {| rdbuf := rdbuf stream ++ x; basic_ios := basic_ios stream |}.
Proof.
  intros Hg Hw. unfold put, run, insert_string. rewrite Hg.
  rewrite padded_no_width by lia. now rewrite width_0_idem.
Qed.

(** On a good stream, the first insertion takes the pending width. *)
Lemma put_good (stream : basic_stringstream) (x : string) :
  ios_good (basic_ios stream) = true ->
  put stream x
  = {| rdbuf := rdbuf stream ++ padded (basic_ios stream) x;
       basic_ios := width_0 (basic_ios stream) |}.
Proof. intros Hg. unfold put, run, insert_string. now rewrite Hg. Qed.

(** On a stream that is not good, an insertion of characters does
    nothing. *)
Lemma put_not_good (stream : basic_stringstream) (x : string) :
  ios_good (basic_ios stream) = false -> put stream x = stream.
Proof.
  intros Hg. unfold put, run, insert_string. rewrite Hg.
  destruct stream as [b io]. cbn. now rewrite append_nil_r.
Qed.

Variable str : string.
Variable ps : list string.

(** The loop makes the same steps whatever the stream is: a relation
    between the stream and the characters given in its place that every
    insertion keeps, holds when the loop is left. *)
Lemma Format_while_simulates
    (R : basic_stringstream -> string -> Prop) :
  (forall s o x, R s o -> R (put s x) (o ++ x)) ->
  forall (fuel : nat) (lp k : Z) (s : basic_stringstream) (o : string)
         (b : locals),
    R s o ->
    Format_loop fuel str ps
      {| last_pos := lp; arg_counter := k; stream := o |} = Ok b ->
    exists s',
      Format_while fuel str ps
        {| scan_last_pos := lp; scan_arg_counter := k; scan_stream := s |}
      = Ok {| scan_last_pos := last_pos b;
              scan_arg_counter := arg_counter b;
              scan_stream := s' |}
      /\ R s' (stream b).
Proof.
  intros HR. induction fuel as [|fuel IH]; intros lp k s o b Hs H;
    [discriminate|].
  cbn [Format_loop Format_while last_pos arg_counter stream
       scan_last_pos scan_arg_counter scan_stream] in *.
  destruct (find str SUBSTITUTE_MASK lp =? npos).
  - injection H as <-. exists s. split; [reflexivity | assumption].
  - destruct (if 0 <? find str SUBSTITUTE_MASK lp
              then c <- at_ str (wrap (find str SUBSTITUTE_MASK lp - 1)) ;;
                   Ok (Ascii.eqb c "%")
              else Ok false) as [[|]|e| |]; cbn [bind] in *;
      try discriminate.
    + destruct (substr str lp (wrap (find str SUBSTITUTE_MASK lp - lp - 1)))
        as [piece|e| |]; cbn [bind] in *; try discriminate.
      apply (IH _ _ _ _ _ (HR _ _ SUBSTITUTE_MASK (HR _ _ piece Hs))).
      now rewrite append_assoc.
    + destruct (substr str lp (wrap (find str SUBSTITUTE_MASK lp - lp)))
        as [piece|e| |]; cbn [bind] in *; try discriminate.
      destruct (k <? Z.of_nat (List.length ps)).
      * apply (IH _ _ _ _ _ (HR _ _ (nth (Z.to_nat k) ps "")
                               (HR _ _ piece Hs))).
        now rewrite append_assoc.
      * apply (IH _ _ _ _ _ (HR _ _ "?" (HR _ _ piece Hs))).
        now rewrite append_assoc.
Qed.

End StreamScan.

Section FormatBody.

Variable str : string.
Hypothesis str_fits : size str < npos.

Lemma skip_app (a b : string) : skip (String.length a) (a ++ b) = b.
Proof. induction a as [|c a IH]; [reflexivity | exact IH]. Qed.

(** The rest of the template, after the loop. *)
Lemma substr_rest (lp : nat) :
  (lp <= String.length str)%nat ->
  substr str (Z.of_nat lp) (wrap (size str - Z.of_nat lp))
  = Ok (skip lp str).
Proof.
  intros H.
  replace (size str - Z.of_nat lp)
    with (Z.of_nat (String.length str - lp)) by (unfold size; lia).
  rewrite (substr_from str str_fits) by lia. f_equal.
  rewrite <- (skip_length lp str). apply substring_whole.
Qed.

Lemma substr_whole : substr str 0 (wrap (size str - 0)) = Ok str.
Proof. exact (substr_rest 0 (Nat.le_0_l _)). Qed.

Lemma substr_0 (n : nat) :
  (n <= String.length str)%nat ->
  substr str 0 (wrap (Z.of_nat n)) = Ok (String.substring 0 n str).
Proof. intros H. exact (substr_from str str_fits 0 n H). Qed.

Lemma find_0 :
  find str SUBSTITUTE_MASK 0
  = match String.index 0 SUBSTITUTE_MASK str with
    | Some j => Z.of_nat j
    | None => npos
    end.
Proof. exact (find_from str 0 (Nat.le_0_l _)). Qed.

Lemma screened_0 (j : nat) :
  (j < String.length str)%nat ->
  (if 0 <? Z.of_nat j
   then c <- at_ str (wrap (Z.of_nat j - 1)) ;; Ok (Ascii.eqb c "%")
   else Ok false)
  = Ok (escaped_from false str j).
Proof. intros H. exact (screened_from str str_fits 0 j H eq_refl). Qed.

(** The loop from a state it can reach, on a good stream without a pending
    width: it makes the steps of the loop on the characters alone. *)
Lemma Format_while_plain (ps : list string) (fuel lp k : nat)
    (s : basic_stringstream) :
  ios_good (basic_ios s) = true ->
  ios_width (basic_ios s) = 0 ->
  (lp <= String.length str)%nat ->
  escaped_at str lp = false ->
  (k <= List.length ps)%nat ->
  (2 * k <= lp)%nat ->
  (String.length str - lp < fuel)%nat ->
  exists (lp' : nat) (out' : string),
    Format_while fuel str ps
      {| scan_last_pos := Z.of_nat lp; scan_arg_counter := Z.of_nat k;
         scan_stream := s |}
    = Ok {| scan_last_pos := Z.of_nat lp';
            scan_arg_counter :=
              Z.of_nat (Nat.min (List.length ps)
                          (k + count_unescaped false (skip lp str)));
            scan_stream := {| rdbuf := out'; basic_ios := basic_ios s |} |}
    /\ (lp' <= String.length str)%nat
    /\ out' ++ skip lp' str
       = rdbuf s ++ substitute false (skip lp str) (skipn k ps).
Proof.
  intros Hg Hw Hlp Hesc Hk Hk2 Hfuel.
  destruct (Format_loop_correct str ps str_fits fuel lp k (rdbuf s))
    as (lp' & out' & H1 & H2 & H3); try assumption.
  destruct (Format_while_simulates str ps
              (fun s' o => s' = {| rdbuf := o; basic_ios := basic_ios s |}))
    with (fuel := fuel) (lp := Z.of_nat lp) (k := Z.of_nat k) (s := s)
         (o := rdbuf s)
         (b := {| last_pos := Z.of_nat lp';
                  arg_counter :=
                    Z.of_nat (Nat.min (List.length ps)
                                (k + count_unescaped false (skip lp str)));
                  stream := out' |})
    as (s' & E & Hs').
  - intros s0 o x ->. now rewrite put_plain.
  - now destruct s.
  - exact H1.
  - cbn [last_pos arg_counter stream] in E, Hs'. subst s'.
    exists lp', out'. repeat split; assumption.
Qed.

(** A stream that is not good stays as it is. *)
Lemma Format_body_not_good (ps : list string) (s : basic_stringstream) :
  ios_good (basic_ios s) = false ->
  Format_body s str ps = Ok (rdbuf s).
Proof.
  intros Hg.
  destruct (Format_loop_initial str str_fits ps)
    as (lp' & out' & H1 & H2 & H3).
  destruct (Format_while_simulates str ps (fun s' _ => s' = s))
    with (1 := fun s0 (o x : string) (H : s0 = s) =>
                 eq_trans (f_equal (fun z => put z x) H)
                          (put_not_good s x Hg))
         (2 := eq_refl s) (3 := H1)
    as (s' & E & Hs').
  subst s'. unfold Format_body. rewrite E.
  cbn [bind scan_last_pos scan_stream last_pos].
  rewrite substr_rest by assumption. cbn [bind].
  now rewrite put_not_good.
Qed.

(** The general overload from its loop on: the first piece takes the
    pending width, and the rest is written as it is. *)
Lemma Format_body_correct (ps : list string) (s : basic_stringstream) :
  rdbuf s = "" ->
  Format_body s str ps
  = Ok (on_stream (basic_ios s) str (substitute false str ps)).
Proof.
  intros Hb. unfold on_stream.
  destruct (ios_good (basic_ios s)) eqn:G;
    [|rewrite Format_body_not_good by assumption; now rewrite Hb].
  destruct s as [b io]. cbn [rdbuf basic_ios] in *. subst b.
  assert (Hfit : Z.of_nat (String.length str) < npos) by exact str_fits.
  unfold Format_body, loop_budget, first_piece.
  cbn [Format_while scan_last_pos scan_arg_counter scan_stream].
  rewrite find_0.
  destruct (String.index 0 SUBSTITUTE_MASK str) as [j|] eqn:E.
  - pose proof (index_mask_bound _ _ E) as Hj.
    pose proof (index_mask_second _ _ E) as Hq.
    assert (N : (Z.of_nat j =? npos) = false)
      by (apply Z.eqb_neq; lia).
    rewrite N, screened_0 by lia.
    cbn [bind].
    assert (Hnext : wrap (Z.of_nat j + strlen SUBSTITUTE_MASK)
                    = Z.of_nat (j + 2)).
    { change (strlen SUBSTITUTE_MASK) with 2.
      rewrite wrap_small by (unfold npos in Hfit; lia). lia. }
    assert (Hesc : escaped_at str (j + 2) = false).
    { replace (j + 2)%nat with (S (S j)) by lia.
      unfold escaped_at. now rewrite Hq. }
    rewrite Hnext, (substitute_at false str j ps E).
    assert (G0 : forall x,
               put {| rdbuf := ""; basic_ios := io |} x
               = {| rdbuf := padded io x; basic_ios := width_0 io |})
      by (intros x; now rewrite put_good by exact G).
    destruct (escaped_from false str j) eqn:F.
    + assert (1 <= j)%nat by (destruct j; [discriminate F | lia]).
      replace (Z.of_nat j - 0 - 1) with (Z.of_nat (j - 1)) by lia.
      rewrite substr_0 by lia.
      cbn [bind]. rewrite G0, put_plain by (exact G || reflexivity).
      cbn [rdbuf basic_ios].
      destruct (Format_while_plain ps (String.length str) (j + 2) 0
                  {| rdbuf := padded io (String.substring 0 (j - 1) str)
                              ++ SUBSTITUTE_MASK;
                     basic_ios := width_0 io |})
        as (lp' & out' & H1 & H2 & H3);
        [exact G | reflexivity | lia | exact Hesc | lia | lia | lia | ].
      change (Z.of_nat 0) with 0 in H1. rewrite H1.
      cbn [bind scan_last_pos scan_stream].
      rewrite substr_rest by assumption. cbn [bind].
      rewrite put_plain by (exact G || reflexivity). cbn [rdbuf].
      rewrite H3. cbn [rdbuf skipn]. f_equal.
      now rewrite skip_app, !append_assoc.
    + replace (Z.of_nat j - 0) with (Z.of_nat j) by lia.
      rewrite substr_0 by lia.
      cbn [bind]. rewrite G0.
      destruct ps as [|p ps'].
      * cbn [List.length]. change (0 <? Z.of_nat 0) with false.
        cbn iota. rewrite put_plain by (exact G || reflexivity).
        cbn [rdbuf basic_ios].
        destruct (Format_while_plain [] (String.length str) (j + 2) 0
                    {| rdbuf := padded io (String.substring 0 j str) ++ "?";
                       basic_ios := width_0 io |})
          as (lp' & out' & H1 & H2 & H3);
          [exact G | reflexivity | lia | exact Hesc | cbn; lia
          | lia | lia | ].
        change (Z.of_nat 0) with 0 in H1. rewrite H1.
        cbn [bind scan_last_pos scan_stream].
        rewrite substr_rest by assumption. cbn [bind].
        rewrite put_plain by (exact G || reflexivity). cbn [rdbuf].
        rewrite H3. cbn [rdbuf skipn next_parameter tl]. f_equal.
        now rewrite skip_app, !append_assoc.
      * assert (L : (0 <? Z.of_nat (List.length (p :: ps'))) = true)
          by (apply Z.ltb_lt; cbn [List.length]; lia).
        rewrite L. cbn iota.
        rewrite put_plain by (exact G || reflexivity).
        cbn [rdbuf basic_ios].
        assert (Hinc : wrap (0 + 1) = Z.of_nat 1) by reflexivity.
        rewrite Hinc.
        change (nth (Z.to_nat 0) (p :: ps') "") with p.
        destruct (Format_while_plain (p :: ps') (String.length str) (j + 2) 1
                    {| rdbuf := padded io (String.substring 0 j str) ++ p;
                       basic_ios := width_0 io |})
          as (lp' & out' & H1 & H2 & H3);
          [exact G | reflexivity | lia | exact Hesc
          | cbn [List.length]; lia | lia | lia | ].
        rewrite H1.
        cbn [bind scan_last_pos scan_stream].
        rewrite substr_rest by assumption. cbn [bind].
        rewrite put_plain by (exact G || reflexivity). cbn [rdbuf].
        rewrite H3.
        cbn [rdbuf skipn next_parameter tl nth Z.to_nat]. f_equal.
        now rewrite skip_app, !append_assoc.
  - rewrite Z.eqb_refl. cbn [bind scan_last_pos scan_stream].
    rewrite substr_whole. cbn [bind]. rewrite put_good by exact G. cbn [rdbuf basic_ios].
    f_equal. rewrite (substitute_no_mask _ _ _ E).
    rewrite skip_all by lia. now rewrite append_nil_r.
Qed.

End FormatBody.

(** ** The general overload *)

Lemma GetOutputParameters_rendered (stream : basic_stringstream) (t : value)
    (args : list value) :
  GetOutputParameters stream (t :: args) = rendered stream (t :: args).
Proof.
  revert stream t; induction args as [|u args IH]; intros stream t.
  - cbn. destruct (OutputValue t stream); reflexivity.
  - change (GetOutputParameters stream (t :: u :: args))
      with (match OutputValue t stream with
            | Some stream0 =>
                match GetOutputParameters (str_set stream0 "") (u :: args)
                with
                | Some (texts, stream') =>
                    Some (rdbuf stream0 :: texts, stream')
                | None => None
                end
            | None => None
            end).
    cbn [rendered]. destruct (OutputValue t stream) as [stream0|];
      [|reflexivity].
    now rewrite IH.
Qed.

Lemma rendered_length (stream stream' : basic_stringstream)
    (args : list value) (ps : list string) :
  rendered stream args = Some (ps, stream') ->
  List.length ps = List.length args.
Proof.
  revert stream ps; induction args as [|t args IH]; intros stream ps H;
    cbn [rendered] in H.
  - now inversion H.
  - destruct (OutputValue t stream) as [stream0|]; [|discriminate].
    destruct (rendered (str_set stream0 "") args) as [[l s]|] eqn:E;
      [|discriminate].
    inversion H; subst. cbn. f_equal. now apply (IH _ _ E).
Qed.

(** The stream is empty after the last argument. *)
Lemma rendered_rdbuf (stream stream' : basic_stringstream)
    (args : list value) (ps : list string) :
  rdbuf stream = "" ->
  rendered stream args = Some (ps, stream') ->
  rdbuf stream' = "".
Proof.
  revert stream ps; induction args as [|t args IH]; intros stream ps Hb H;
    cbn [rendered] in H.
  - now inversion H; subst.
  - destruct (OutputValue t stream) as [stream0|]; [|discriminate].
    destruct (rendered (str_set stream0 "") args) as [[l s]|] eqn:E;
      [|discriminate].
    inversion H; subst. exact (IH (str_set stream0 "") l eq_refl E).
Qed.

(** A call with at least one argument that the compiler accepts. *)
Lemma Format_general (f : Formatter) (str : string) (args : list value)
    (ps : list string) (stream' : basic_stringstream) :
  size str < npos ->
  args <> [] ->
  rendered (stream_of f) args = Some (ps, stream') ->
  Format f str args
  = Ok (on_stream (basic_ios stream') str (substitute false str ps)).
Proof.
  intros Hfit Hne Hr. destruct args as [|t args]; [congruence|].
  unfold Format. fold (stream_of f).
  rewrite GetOutputParameters_rendered, Hr.
  apply Format_body_correct; [assumption|].
  now apply (rendered_rdbuf (stream_of f) stream' (t :: args) ps).
Qed.

Lemma Format_no_arguments (f : Formatter) (str : string) :
  Format f str [] = Ok str.
Proof. reflexivity. Qed.

(** The output of the scan starts with its first piece. *)
Lemma substitute_first_piece (str : string) (ps : list string) :
  substitute false str ps
  = first_piece str
    ++ skip (String.length (first_piece str)) (substitute false str ps).
Proof.
  unfold first_piece.
  destruct (String.index 0 SUBSTITUTE_MASK str) as [j|] eqn:E.
  - rewrite (substitute_at false str j ps E).
    destruct (escaped_from false str j); now rewrite skip_app.
  - rewrite (substitute_no_mask _ _ _ E).
    rewrite skip_all by lia. now rewrite append_nil_r.
Qed.

(** On a good stream whose pending width does not exceed the first piece,
    the scan writes the substitution as it is. *)
Lemma on_stream_plain (io : ios) (str : string) (ps : list string) :
  ios_good io = true ->
  ios_width io <= size (first_piece str) ->
  on_stream io str (substitute false str ps) = substitute false str ps.
Proof.
  intros Hg Hw. unfold on_stream. rewrite Hg.
  rewrite (substitute_first_piece str ps) at 2. f_equal.
  unfold padded.
  assert (L : (size (first_piece str) <? ios_width io) = false)
    by (apply Z.ltb_ge; lia).
  now rewrite L.
Qed.

(** The stream of [Format] before the first argument is good and has no
    pending width. *)
Lemma stream_of_plain (f : Formatter) :
  rdbuf (stream_of f) = ""
  /\ ios_good (basic_ios (stream_of f)) = true
  /\ ios_width (basic_ios (stream_of f)) = 0.
Proof. repeat split. Qed.

(** The number of inserted arguments does not depend on the stream. *)
Lemma arguments_inserted_consumed (stream : basic_stringstream)
    (str : string) (ps : list string) :
  size str < npos ->
  arguments_inserted stream str ps = arguments_consumed str ps.
Proof.
  intros Hfit.
  destruct (Format_loop_initial str Hfit ps) as (lp' & out' & H1 & H2 & H3).
  destruct (Format_while_simulates str ps (fun _ _ => True))
    with (1 := fun (s : basic_stringstream) (o x : string) (H : True) => H)
         (2 := I) (3 := H1) (s := stream)
    as (s' & E & _).
  unfold arguments_inserted, arguments_consumed. now rewrite E, H1.
Qed.

(** The general overload, by the scan of the texts alone. *)
Lemma Format_with_arguments (f : Formatter) (str : string)
    (args : list value) (ps : list string) (stream' : basic_stringstream) :
  size str < npos ->
  args <> [] ->
  rendered (stream_of f) args = Some (ps, stream') ->
  Format f str args = written stream' str (Format_scan str ps).
Proof.
  intros Hfit Hne Hr. rewrite (Format_general f str args ps stream' Hfit Hne Hr).
  now rewrite (Format_scan_correct str Hfit).
Qed.

(** On a good stream without a pending width, the result is that of the
    scan of the texts. *)
Lemma written_plain (stream : basic_stringstream) (str : string)
    (ps : list string) :
  size str < npos ->
  ios_good (basic_ios stream) = true ->
  ios_width (basic_ios stream) <= 0 ->
  written stream str (Format_scan str ps) = Format_scan str ps.
Proof.
  intros Hfit Hg Hw. rewrite (Format_scan_correct str Hfit).
  unfold written. cbn [bind]. f_equal. apply on_stream_plain; [assumption|].
  pose proof (size_nonneg (first_piece str)). lia.
Qed.

(** On a good stream without a pending width and without characters, the
    general overload from its loop on is the scan of the texts alone. *)
Lemma Format_body_scan (stream : basic_stringstream) (str : string)
    (ps : list string) :
  size str < npos ->
  rdbuf stream = "" ->
  ios_good (basic_ios stream) = true ->
  ios_width (basic_ios stream) <= 0 ->
  Format_body stream str ps = Format_scan str ps.
Proof.
  intros Hfit Hb Hg Hw.
  rewrite (Format_body_correct str Hfit ps stream Hb).
  rewrite <- (written_plain stream str ps Hfit Hg Hw).
  now rewrite (Format_scan_correct str Hfit).
Qed.

Lemma Format_plain (f : Formatter) (str : string) (args : list value)
    (ps : list string) (stream' : basic_stringstream) :
  size str < npos ->
  args <> [] ->
  rendered (stream_of f) args = Some (ps, stream') ->
  ios_good (basic_ios stream') = true ->
  ios_width (basic_ios stream') <= 0 ->
  Format f str args = Ok (substitute false str ps).
Proof.
  intros Hfit Hne Hr Hg Hw.
  rewrite (Format_with_arguments f str args ps stream' Hfit Hne Hr).
  rewrite written_plain by assumption. now apply Format_scan_correct.
Qed.

(** ** Templates in two parts *)

Section Composition.

Local Open Scope nat_scope.

Lemma string_length_ind (P : string -> Prop) :
  (forall s, (forall t, String.length t < String.length s -> P t) -> P s) ->
  forall s, P s.
Proof.
  intros step s.
  assert (H : forall n t, String.length t < n -> P t).
  { induction n as [|n IH]; intros t Ht; [lia|].
    apply step. intros u Hu. apply IH. lia. }
  apply (H (S (String.length s))). lia.
Qed.

Lemma prefix_cons (a b : ascii) (p s : string) :
  String.prefix (String a p) (String b s)
  = Ascii.eqb a b && String.prefix p s.
Proof.
  cbn [String.prefix].
  destruct (ascii_dec a b) as [->|N].
  - now rewrite Ascii.eqb_refl.
  - apply Ascii.eqb_neq in N. now rewrite N.
Qed.

Lemma prefix_nil (s : string) : String.prefix EmptyString s = true.
Proof. destruct s; reflexivity. Qed.

(** The mask at the head of a string is a matter of its first two
    characters. *)
Lemma prefix_mask_cons (c : ascii) (t : string) :
  String.prefix SUBSTITUTE_MASK (String c t)
  = is_escape c && String.prefix "?" t.
Proof.
  unfold SUBSTITUTE_MASK, is_escape. rewrite prefix_cons.
  now rewrite (Ascii.eqb_sym "%" c).
Qed.

Lemma prefix_question (t : string) :
  String.prefix "?" t
  = match t with
    | String d _ => Ascii.eqb d "?"
    | EmptyString => false
    end.
Proof.
  destruct t as [|d r]; [reflexivity|].
  rewrite prefix_cons, prefix_nil, andb_true_r. apply Ascii.eqb_sym.
Qed.

Lemma prefix_mask_app (t s : string) :
  t <> EmptyString -> separate t s = true ->
  String.prefix SUBSTITUTE_MASK (t ++ s) = String.prefix SUBSTITUTE_MASK t.
Proof.
  intros Hne Hsep. destruct t as [|c [|d r]]; [congruence| |].
  - simpl append. rewrite !prefix_mask_cons.
    change (String.prefix "?" "") with false. rewrite andb_false_r.
    unfold separate in Hsep. simpl ends_with_escape in Hsep.
    destruct (is_escape c); [|reflexivity]. simpl in Hsep.
    apply negb_true_iff, orb_false_iff in Hsep. destruct Hsep as [-> _].
    reflexivity.
  - simpl append. rewrite !prefix_mask_cons, !prefix_question. reflexivity.
Qed.

Lemma separate_tail (c d : ascii) (t s : string) :
  separate (String c (String d t)) s = separate (String d t) s.
Proof. reflexivity. Qed.

Lemma skipn_tl {A : Type} (n : nat) (l : list A) :
  skipn n (tl l) = skipn (S n) l.
Proof. destruct l; [now destruct n | reflexivity]. Qed.

Lemma count_unescaped_here (a : bool) (r : string) :
  count_unescaped a (String "%" (String "?" r))
  = (if a then 0 else 1) + count_unescaped false r.
Proof.
  rewrite !count_unescaped_cons, !prefix_mask_cons.
  destruct a, r; reflexivity.
Qed.

(** A template in two parts that do not share an occurrence is scanned
    part by part; the second part takes the arguments that the first one
    leaves. *)
Lemma substitute_app (s : string) :
  forall (pre : string) (a : bool) (ps : list string),
    separate pre s = true ->
    substitute a (pre ++ s) ps
    = substitute a pre ps
      ++ substitute (follows_escape a pre) s
           (skipn (count_unescaped a pre) ps).
Proof.
  intros pre. induction pre as [pre IH] using string_length_ind.
  intros a ps Hsep. destruct pre as [|c t]; [reflexivity|].
  cbn [append]. rewrite !substitute_cons.
  destruct t as [|d r].
  - (* the last character of the first part *)
    cbn [append]. rewrite !prefix_mask_cons.
    change (String.prefix "?" "") with false.
    change (String.prefix SUBSTITUTE_MASK "") with false.
    rewrite !andb_false_r.
    unfold separate in Hsep. cbn [ends_with_escape] in Hsep.
    cbn [follows_escape]. rewrite count_unescaped_cons, prefix_mask_cons.
    change (String.prefix "?" "") with false. rewrite andb_false_r.
    cbn [count_unescaped]. cbn [skipn].
    destruct (is_escape c) eqn:E.
    + simpl in Hsep. apply negb_true_iff, orb_false_iff in Hsep.
      destruct Hsep as [H1 H2]. rewrite H1, H2.
      cbn [andb append substitute ends_with_escape Nat.add skipn].
      now rewrite E.
    + cbn [andb append substitute ends_with_escape Nat.add skipn].
      now rewrite E.
  - change (follows_escape a (String c (String d r)))
      with (follows_escape (is_escape c) (String d r)).
    rewrite separate_tail in Hsep.
    assert (P : String.prefix SUBSTITUTE_MASK (String d r ++ s)
                = String.prefix SUBSTITUTE_MASK (String d r))
      by (apply prefix_mask_app; [discriminate | assumption]).
    change (String c (String d r ++ s)) with (String c (String d r) ++ s).
    rewrite (prefix_mask_app (String c (String d r)) s)
      by (discriminate || (rewrite separate_tail; assumption)).
    rewrite P, count_unescaped_cons.
    destruct (String.prefix SUBSTITUTE_MASK (String c (String d r))) eqn:Q.
    + (* the mask is at the head *)
      apply prefix_mask in Q. destruct Q as [r' Q]. inversion Q; subst.
      destruct a.
      * cbn [negb]. rewrite andb_false_r. cbn [Nat.add].
        rewrite (IH (String "?" r')) by (simpl; lia || assumption).
        reflexivity.
      * cbn [andb]. cbn [append].
        destruct r' as [|e r''].
        -- cbn [append]. cbn [count_unescaped]. rewrite append_nil_r.
           cbn [substitute]. cbn [follows_escape].
           destruct ps; reflexivity.
        -- rewrite (IH (String e r'')); [|simpl; lia|exact Hsep].
           rewrite append_assoc.
           change (count_unescaped (is_escape "%") (String "?" (String e r'')))
             with (count_unescaped false (String e r'')).
           rewrite <- skipn_tl. reflexivity.
    + cbn [andb]. cbn [Nat.add].
      destruct (is_escape c && String.prefix SUBSTITUTE_MASK (String d r))
        eqn:B.
      * apply andb_prop in B. destruct B as [B1 B2]. rewrite B1.
        rewrite (IH (String d r)) by (simpl; lia || assumption).
        reflexivity.
      * rewrite (IH (String d r)) by (simpl; lia || assumption).
        reflexivity.
Qed.

End Composition.

(** ** Arguments that are missing or left over *)

Section Arity.

Local Open Scope nat_scope.

Lemma substring_length (n : nat) (s : string) :
  n <= String.length s -> String.length (String.substring 0 n s) = n.
Proof.
  revert s; induction n as [|n IH]; intros s H.
  - now rewrite substring_0_0.
  - destruct s as [|c s]; simpl in H; [lia|].
    simpl. f_equal. apply IH. lia.
Qed.

Lemma lenient_arguments_next (n : nat) (ps : list string) :
  next_parameter (lenient_arguments (S n) ps) = next_parameter ps
  /\ tl (lenient_arguments (S n) ps) = lenient_arguments n (tl ps).
Proof.
  unfold lenient_arguments. destruct ps as [|p ps]; simpl.
  - rewrite Nat.sub_0_r. destruct n; split; reflexivity.
  - split; reflexivity.
Qed.

(** Only the arguments that have a substitution site matter, and a site
    without an argument takes the unknown marker. *)
Lemma substitute_lenient (s : string) :
  forall (a : bool) (ps : list string),
    substitute a s ps
    = substitute a s (lenient_arguments (count_unescaped a s) ps).
Proof.
  induction s as [s IH] using string_length_ind. intros a ps.
  destruct (String.index 0 SUBSTITUTE_MASK s) as [j|] eqn:E.
  - pose proof (index_mask_bound _ _ E) as Hb.
    rewrite (count_unescaped_at _ _ _ E), !(substitute_at _ _ _ _ E).
    assert (Hlen : String.length (skip (j + 2) s) < String.length s)
      by (rewrite skip_length; lia).
    destruct (escaped_from a s j).
    + cbn [Nat.add]. now rewrite <- (IH _ Hlen).
    + cbn [Nat.add].
      destruct (lenient_arguments_next
                  (count_unescaped false (skip (j + 2) s)) ps) as [-> ->].
      now rewrite <- (IH _ Hlen).
  - now rewrite !(substitute_no_mask _ _ _ E).
Qed.

(** Without arguments the scan makes the template shorter by one character
    for each occurrence of the mask. *)
Lemma substitute_length_le (s : string) :
  forall a : bool, String.length (substitute a s []) <= String.length s.
Proof.
  induction s as [s IH] using string_length_ind. intros a.
  destruct (String.index 0 SUBSTITUTE_MASK s) as [j|] eqn:E.
  - pose proof (index_mask_bound _ _ E) as Hb.
    rewrite (substitute_at _ _ _ _ E).
    assert (Hlen : String.length (skip (j + 2) s) < String.length s)
      by (rewrite skip_length; lia).
    specialize (IH _ Hlen false). rewrite skip_length in IH.
    destruct (escaped_from a s j);
      rewrite !append_length, substring_length by lia;
      cbn [tl next_parameter String.length SUBSTITUTE_MASK]; lia.
  - rewrite (substitute_no_mask _ _ _ E). lia.
Qed.

Lemma substitute_shorter (s : string) (j : nat) :
  String.index 0 SUBSTITUTE_MASK s = Some j ->
  String.length (substitute false s []) < String.length s.
Proof.
  intros E. pose proof (index_mask_bound _ _ E) as Hb.
  rewrite (substitute_at _ _ _ _ E).
  pose proof (substitute_length_le (skip (j + 2) s) false) as L.
  rewrite skip_length in L.
  destruct (escaped_from false s j) eqn:F.
  - assert (1 <= j) by (destruct j; [discriminate F | lia]).
    rewrite !append_length, substring_length by lia.
    cbn [String.length SUBSTITUTE_MASK]. lia.
  - rewrite !append_length, substring_length by lia.
    cbn [tl next_parameter String.length]. lia.
Qed.

(** The mask occurs nowhere exactly when the search from [0] fails. *)
Lemma no_occurrence_index (s : string) :
  (forall p, occurs_at s p = false) <->
  String.index 0 SUBSTITUTE_MASK s = None.
Proof.
  split.
  - intros H. destruct (String.index 0 SUBSTITUTE_MASK s) as [m|] eqn:E;
      [|reflexivity].
    apply index_correct1 in E. specialize (H m). unfold occurs_at in H.
    change (String.length SUBSTITUTE_MASK) with 2 in E.
    rewrite E, String.eqb_refl in H. discriminate.
  - intros H p. unfold occurs_at. apply String.eqb_neq.
    apply (index_correct3 0 p SUBSTITUTE_MASK s H); [discriminate | lia].
Qed.

End Arity.

(** ** Substitution sites by position *)

Section Sites.

Local Open Scope nat_scope.

Lemma filter_map_S (f : nat -> bool) (l : list nat) :
  filter f (map S l) = map S (filter (fun p => f (S p)) l).
Proof.
  induction l as [|x l IH]; [reflexivity|].
  cbn [map filter]. destruct (f (S x)); cbn [map]; now rewrite IH.
Qed.

Lemma occurs_at_head (s : string) :
  occurs_at s 0 = String.prefix SUBSTITUTE_MASK s.
Proof.
  unfold occurs_at.
  destruct (String.prefix SUBSTITUTE_MASK s) eqn:P.
  - apply prefix_correct in P. apply String.eqb_eq. exact P.
  - apply String.eqb_neq. intros H.
    assert (Q : String.prefix SUBSTITUTE_MASK s = true)
      by (apply prefix_correct; exact H).
    congruence.
Qed.

Lemma escaped_from_tail (a : bool) (c : ascii) (t : string) (p : nat) :
  escaped_from a (String c t) (S p) = escaped_from (is_escape c) t p.
Proof. destruct p; reflexivity. Qed.

(** The count made character by character is the number of positions
    where the mask occurs without a [%] before it. *)
Lemma count_unescaped_sites (s : string) :
  forall a, count_unescaped a s = List.length (sites_from a s).
Proof.
  induction s as [|c t IH]; intros a; [reflexivity|].
  rewrite count_unescaped_cons, (IH (is_escape c)).
  unfold sites_from. cbn [String.length seq filter].
  rewrite <- seq_shift, filter_map_S.
  rewrite occurs_at_head. cbn [escaped_from].
  rewrite (filter_ext
             (fun p => occurs_at (String c t) (S p)
                       && negb (escaped_from a (String c t) (S p)))
             (fun p => occurs_at t p
                       && negb (escaped_from (is_escape c) t p)))
    by (intros p; now rewrite escaped_from_tail).
  destruct (String.prefix SUBSTITUTE_MASK (String c t) && negb a);
    cbn [List.length]; now rewrite length_map.
Qed.

Lemma count_unescaped_positions (s : string) :
  count_unescaped false s = List.length (substitution_sites s).
Proof.
  rewrite count_unescaped_sites. unfold sites_from, substitution_sites.
  f_equal. apply filter_ext. intros p. now destruct p.
Qed.

(** The character before the position just after [pre]. *)
Lemma escaped_at_app (pre s : string) :
  escaped_at (pre ++ s) (String.length pre) = ends_with_escape pre.
Proof.
  induction pre as [|c t IH]; [reflexivity|].
  destruct t as [|d r]; [reflexivity|].
  exact IH.
Qed.

Lemma occurs_at_app (pre post : string) :
  occurs_at (pre ++ SUBSTITUTE_MASK ++ post) (String.length pre) = true.
Proof.
  induction pre as [|c t IH].
  - rewrite occurs_at_head. apply prefix_mask. now exists post.
  - exact IH.
Qed.

(** Without a screened occurrence there is no [%] to drop. *)
Lemma substitute_replace (s : string) :
  forall (a : bool) (ps : list string),
    (forall p, occurs_at s p = true -> escaped_from a s p = false) ->
    substitute a s ps = replace_unescaped a s ps.
Proof.
  induction s as [s IH] using string_length_ind. intros a ps H.
  destruct s as [|c t]; [reflexivity|].
  rewrite substitute_cons. cbn [replace_unescaped].
  assert (Ht : forall p, occurs_at t p = true ->
                         escaped_from (is_escape c) t p = false).
  { intros p Hp. rewrite <- (escaped_from_tail a). now apply H. }
  destruct (String.prefix SUBSTITUTE_MASK (String c t)) eqn:P.
  - assert (a = false) as -> by (apply (H 0); now rewrite occurs_at_head).
    cbn [andb negb]. destruct t as [|d r]; [reflexivity|].
    rewrite (IH r); [reflexivity | simpl; lia |].
    intros p Hp. destruct p as [|q]; [reflexivity|].
    apply (H (S (S (S q))) Hp).
  - cbn [andb].
    destruct (is_escape c && String.prefix SUBSTITUTE_MASK t) eqn:B.
    + apply andb_prop in B. destruct B as [B1 B2].
      rewrite <- occurs_at_head in B2. specialize (Ht 0 B2).
      cbn [escaped_from] in Ht. congruence.
    + rewrite (IH t); [reflexivity | simpl; lia | exact Ht].
Qed.

End Sites.


(** ** Results *)

(** C6, as stated, fails: after an argument that leaves a field width
    pending on the stream, [std::setw(10)], the template is written in a
    field of that width. *)
Lemma Format_without_mask_padded :
  (forall p, occurs_at "No args" p = false)
  /\ Format formatter "No args" [setw 10] = Ok "   No args"
  /\ Format formatter "No args" [setw 10] <> Ok "No args".
Proof.
  split; [|split; [reflexivity | vm_compute; discriminate]].
  intros p. do 8 (destruct p as [|p]; [reflexivity|]).
  unfold occurs_at. simpl. destruct p; reflexivity.
Qed.

(** C6, amended.  A template in which the mask does not occur is written to
    the stream in one piece, whatever the arguments of the call are and
    however many there are: the result is the template in a field of the
    width that the arguments have left pending, and nothing when they have
    left the stream in a failed state.  It is the template as it is when
    the stream is good and the pending width does not exceed the size of
    the template. *)
Theorem Format_without_mask (f : Formatter) (str : string)
    (args : list value) (ps : list string) (stream' : basic_stringstream) :
  size str < npos ->
  (forall p, occurs_at str p = false) ->
  rendered (stream_of f) args = Some (ps, stream') ->
  Format f str args
  = Ok (if ios_good (basic_ios stream')
        then padded (basic_ios stream') str
        else "")
  /\ (ios_good (basic_ios stream') = true ->
      ios_width (basic_ios stream') <= size str ->
      Format f str args = Ok str).
Proof.
  intros Hfit Hno Hr.
  assert (E : Format f str args
              = Ok (if ios_good (basic_ios stream')
                    then padded (basic_ios stream') str
                    else "")).
  { destruct args as [|t args].
    - inversion Hr; subst.
      change (ios_good (basic_ios (stream_of f))) with true. cbn iota.
      rewrite padded_no_width; [reflexivity | cbn; lia].
    - rewrite (Format_general f str (t :: args) ps stream' Hfit
                 ltac:(discriminate) Hr).
      apply no_occurrence_index in Hno.
      unfold on_stream, first_piece. rewrite Hno.
      rewrite (substitute_no_mask _ _ _ Hno).
      rewrite skip_all by lia. now rewrite append_nil_r. }
  split; [exact E|].
  intros Hg Hw. rewrite E, Hg. f_equal. unfold padded.
  assert (L : (size str <? ios_width (basic_ios stream')) = false)
    by (apply Z.ltb_ge; lia).
  now rewrite L.
Qed.

Lemma Format_without_mask_witness :
  Format formatter "No args" [shown "1"; setw 10; unknown; Bool true]
  = Ok "No args"
  /\ Format formatter "No args" [shown "1"; unknown; setw 10]
     = Ok "   No args".
Proof.
  split.
  - refine (proj1 (Format_without_mask formatter "No args"
                     [shown "1"; setw 10; unknown; Bool true]
                     ["1"; ""; "         ?"; "true"] (stream_of formatter)
                     _ _ _)).
    + reflexivity.
    + intros p. do 8 (destruct p as [|p]; [reflexivity|]).
      unfold occurs_at. simpl. destruct p; reflexivity.
    + reflexivity.
  - refine (proj1 (Format_without_mask formatter "No args"
                     [shown "1"; unknown; setw 10] ["1"; "?"; ""]
                     (str_set (run (fun io => ("", width_set 10 io))
                                 (stream_of formatter)) "")
                     _ _ _)).
    + reflexivity.
    + intros p. do 8 (destruct p as [|p]; [reflexivity|]).
      unfold occurs_at. simpl. destruct p; reflexivity.
    + reflexivity.
Defined.

(** C5, as stated, fails: on the template [%?] the overload without
    arguments returns the template, and the scan with an empty array of
    argument texts returns the unknown marker. *)
Lemma Format_no_arguments_differs_from_scan :
  Format formatter "%?" [] <> Format_scan "%?" [].
Proof. vm_compute. discriminate. Qed.

(** C5, amended.  The overload without arguments returns the template as it
    is, and the scan with an empty array of argument texts returns the same
    exactly when the mask does not occur in the template. *)
Theorem Format_no_arguments_is_scan_iff (f : Formatter) (str : string) :
  size str < npos ->
  Format f str [] = Ok str
  /\ (Format_scan str [] = Format f str [] <->
      forall p, occurs_at str p = false).
Proof.
  intros Hfit. split; [reflexivity|].
  rewrite Format_no_arguments, (Format_scan_correct str Hfit).
  rewrite no_occurrence_index. split.
  - intros H. injection H as H.
    destruct (String.index 0 SUBSTITUTE_MASK str) as [j|] eqn:E;
      [|reflexivity].
    pose proof (substitute_shorter str j E) as L. rewrite H in L. lia.
  - intros H. f_equal. now apply substitute_no_mask.
Qed.

Lemma Format_no_arguments_is_scan_iff_witness :
  Format formatter "100%" [] = Ok "100%"
  /\ (Format_scan "100%" [] = Format formatter "100%" [] <->
      forall p, occurs_at "100%" p = false).
Proof.
  apply (Format_no_arguments_is_scan_iff formatter "100%"). reflexivity.
Defined.

(** C2, as stated, fails: in a call without arguments the occurrence of the
    mask is not replaced by the unknown marker. *)
Lemma Format_no_arguments_keeps_mask :
  rendered (stream_of formatter) [] = Some ([], stream_of formatter)
  /\ Format formatter "%?" []
     <> Ok (substitute false "%?"
              (lenient_arguments (List.length (substitution_sites "%?")) [])).
Proof. split; [reflexivity | vm_compute; discriminate]. Qed.

(** C2, amended.  A call with at least one argument returns, whatever the
    number of substitution sites is.  What it writes is what a call writes
    that has exactly one text for each site, where the texts beyond the
    last site are dropped and every site beyond the last text takes the
    unknown marker [?]; it is written to the stream as all the arguments
    have left it, the dropped ones too: the first piece takes the pending
    width, and a stream that is not good takes nothing.  On a good stream
    without a pending width the result is that text as it is. *)
Theorem Format_lenient (f : Formatter) (str : string) (args : list value)
    (ps : list string) (stream' : basic_stringstream) :
  size str < npos ->
  args <> [] ->
  rendered (stream_of f) args = Some (ps, stream') ->
  Format f str args
  = Ok (on_stream (basic_ios stream') str
          (substitute false str
             (lenient_arguments (List.length (substitution_sites str)) ps)))
  /\ (ios_good (basic_ios stream') = true ->
      ios_width (basic_ios stream') <= 0 ->
      Format f str args
      = Ok (substitute false str
              (lenient_arguments (List.length (substitution_sites str))
                 ps))).
Proof.
  intros Hfit Hne Hr.
  assert (E : substitute false str ps
              = substitute false str
                  (lenient_arguments
                     (List.length (substitution_sites str)) ps))
    by (rewrite <- count_unescaped_positions; apply substitute_lenient).
  rewrite <- E. split.
  - now apply Format_general.
  - intros Hg Hw. now apply (Format_plain f str args ps stream').
Qed.

Lemma Format_lenient_witness :
  Format formatter "%?, %?, %?" [shown "1"]
  = Ok (substitute false "%?, %?, %?" ["1"; "?"; "?"])
  /\ Format formatter "%?" [shown "1"; setw 5; shown "3"]
     = Ok (substitute false "%?" ["1"]).
Proof.
  split.
  - refine (proj1 (Format_lenient formatter "%?, %?, %?" [shown "1"] ["1"]
                     (stream_of formatter) _ _ _)).
    + reflexivity.
    + discriminate.
    + reflexivity.
  - refine (proj1 (Format_lenient formatter "%?"
                     [shown "1"; setw 5; shown "3"] ["1"; ""; "    3"]
                     (stream_of formatter) _ _ _)).
    + reflexivity.
    + discriminate.
    + reflexivity.
Defined.

Example Format_underflow :
  Format formatter "%?, %?, %?" [shown "1"] = Ok "1, ?, ?".
Proof. reflexivity. Qed.

Example Format_overflow :
  Format formatter "%?" [shown "1"; shown "2"; shown "3"] = Ok "1".
Proof. reflexivity. Qed.

Example Format_overflow_width :
  Format formatter "%?" [shown "1"; setw 5] = Ok "     1".
Proof. reflexivity. Qed.

Example Format_width_alone :
  Format formatter "%?" [setw 5] = Ok "     "
  /\ Format formatter "%%%?" [setw 8] = Ok "       %%?"
  /\ Format formatter "%?%?|" [setw 3; shown "ab"] = Ok " ab|".
Proof. repeat split. Qed.

(** C1, as stated, fails: with one substitution site and one argument, the
    [%] that screens another occurrence is not kept. *)
Lemma Format_drops_escape :
  rendered (stream_of formatter) [shown "1"]
  = Some (["1"], stream_of formatter)
  /\ List.length (substitution_sites "%%?%?") = List.length [shown "1"]
  /\ Format formatter "%%?%?" [shown "1"]
     <> Ok (replace_unescaped false "%%?%?" ["1"]).
Proof. repeat split. vm_compute. discriminate. Qed.

(** C1, amended.  When the template has exactly as many substitution sites
    as the call has arguments, and there is at least one, every argument is
    inserted, and what is written is the template with the i-th site
    replaced by the text of the i-th argument and with the [%] in front of
    every screened occurrence removed, the other characters being kept; it
    is written to the stream as the arguments have left it: the first piece
    takes the pending width, and a stream that is not good takes nothing.
    On a good stream without a pending width the result is that text as it
    is.  Without sites and without arguments the result is the template. *)
Theorem Format_exact_arity (f : Formatter) (str : string)
    (args : list value) (ps : list string) (stream' : basic_stringstream) :
  size str < npos ->
  rendered (stream_of f) args = Some (ps, stream') ->
  List.length (substitution_sites str) = List.length args ->
  Format f str args
  = Ok (match args with
        | [] => str
        | _ :: _ =>
            on_stream (basic_ios stream') str (substitute false str ps)
        end)
  /\ (args <> [] ->
      ios_good (basic_ios stream') = true ->
      ios_width (basic_ios stream') <= 0 ->
      Format f str args = Ok (substitute false str ps))
  /\ arguments_inserted stream' str ps = Ok (Z.of_nat (List.length args)).
Proof.
  intros Hfit Hr Hn. split; [|split].
  - destruct args as [|t args]; [reflexivity|]. now apply Format_general.
  - intros Hne Hg Hw. now apply (Format_plain f str args ps stream').
  - rewrite (arguments_inserted_consumed stream' str ps Hfit).
    rewrite (arguments_consumed_correct str Hfit).
    rewrite (rendered_length _ _ _ _ Hr), count_unescaped_positions, Hn.
    do 2 f_equal. lia.
Qed.

Lemma Format_exact_arity_witness :
  Format formatter "Number: %?, string: %?" [shown "100.1"; shown "abc"]
  = Ok (substitute false "Number: %?, string: %?" ["100.1"; "abc"])
  /\ arguments_inserted (stream_of formatter) "Number: %?, string: %?"
       ["100.1"; "abc"] = Ok 2.
Proof.
  destruct (Format_exact_arity formatter "Number: %?, string: %?"
              [shown "100.1"; shown "abc"] ["100.1"; "abc"]
              (stream_of formatter) eq_refl eq_refl eq_refl)
    as (H1 & _ & H3).
  split; [exact H1 | exact H3].
Defined.

(** Where no occurrence of the mask is screened, nothing but the sites
    changes. *)
Lemma Format_unscreened (f : Formatter) (str : string) (args : list value)
    (ps : list string) (stream' : basic_stringstream) :
  size str < npos ->
  args <> [] ->
  rendered (stream_of f) args = Some (ps, stream') ->
  ios_good (basic_ios stream') = true ->
  ios_width (basic_ios stream') <= 0 ->
  (forall p, occurs_at str p = true -> escaped_at str p = false) ->
  Format f str args = Ok (replace_unescaped false str ps).
Proof.
  intros Hfit Hne Hr Hg Hw Hno.
  rewrite (Format_plain f str args ps stream' Hfit Hne Hr Hg Hw).
  f_equal. apply substitute_replace. intros p Hp.
  specialize (Hno p Hp). now destruct p.
Qed.

Example Format_two_arguments :
  Format formatter "Number: %?, string: %?" [shown "100.1"; shown "abc"]
  = Ok "Number: 100.1, string: abc".
Proof. reflexivity. Qed.
(** C8, as stated, fails: [UnSetF] returns nothing. *)
Lemma UnSetF_returns_void :
  fst (call (call_UnSetF ios_base.dec) formatter)
  <> held_before (call_UnSetF ios_base.dec) formatter.
Proof. discriminate. Qed.

(** C8, amended.  [Flags(flags)], [SetF(flags)], [SetF(flags, mask)],
    [Imbue(loc)] and [Precision(prec)] return the flags, the locale or the
    precision held before the call; [UnSetF(flags)] returns nothing. *)
Theorem setters_return_previous (s : setter) (f : Formatter) :
  fst (call s f)
  = match s with
    | call_UnSetF _ => returns_void
    | _ => held_before s f
    end.
Proof. destruct s; reflexivity. Qed.

(** ** One occurrence in its context *)

Section Occurrence.

Local Open Scope nat_scope.

Lemma skipn_min {A : Type} (n : nat) (l : list A) :
  skipn (Nat.min (List.length l) n) l = skipn n l.
Proof.
  destruct (Nat.le_ge_cases n (List.length l)) as [H|H].
  - now rewrite Nat.min_r.
  - rewrite Nat.min_l by assumption. now rewrite !skipn_all2 by lia.
Qed.

Lemma skipn_succ_min {A : Type} (n : nat) (l : list A) :
  skipn (S (Nat.min (List.length l) n)) l = skipn (S n) l.
Proof.
  destruct (Nat.le_ge_cases n (List.length l)) as [H|H].
  - now rewrite Nat.min_r.
  - rewrite Nat.min_l by assumption. now rewrite !skipn_all2 by lia.
Qed.

Lemma tl_skipn {A : Type} (n : nat) (l : list A) :
  tl (skipn n l) = skipn (S n) l.
Proof.
  revert l; induction n as [|n IH]; intros l.
  - now destruct l.
  - destruct l as [|x l]; [reflexivity|]. apply IH.
Qed.

Lemma chop_escape (pre : string) :
  ends_with_escape pre = true -> pre = chop pre ++ "%".
Proof.
  induction pre as [|c t IH]; [discriminate|].
  destruct t as [|d r].
  - cbn [ends_with_escape chop append]. unfold is_escape.
    intros H. apply Ascii.eqb_eq in H. now subst.
  - intros H. change (chop (String c (String d r)))
      with (String c (chop (String d r))).
    cbn [append]. f_equal. now apply IH.
Qed.

Lemma size_app (a b : string) : size (a ++ b) = (size a + size b)%Z.
Proof. unfold size. rewrite append_length. lia. Qed.

(** An occurrence just after a [%]: the [%] goes, the mask stays, the
    arguments are left for what comes after. *)
Lemma substitute_screened (pre post : string) (ps : list string) :
  substitute false (pre ++ "%" ++ SUBSTITUTE_MASK ++ post) ps
  = substitute false pre ps ++ SUBSTITUTE_MASK
    ++ substitute false post (skipn (count_unescaped false pre) ps).
Proof.
  rewrite substitute_app.
  - f_equal. cbn [append SUBSTITUTE_MASK].
    rewrite substitute_cons, !prefix_mask_cons, !prefix_question.
    cbn [is_escape Ascii.eqb Bool.eqb andb].
    now rewrite substitute_here.
  - unfold separate. cbn [append SUBSTITUTE_MASK].
    rewrite prefix_mask_cons, !prefix_question.
    apply orb_true_r.
Qed.

(** An occurrence that does not follow a [%]: it takes the next argument. *)
Lemma substitute_site (pre post : string) (ps : list string) :
  ends_with_escape pre = false ->
  substitute false (pre ++ SUBSTITUTE_MASK ++ post) ps
  = substitute false pre ps
    ++ next_parameter (skipn (count_unescaped false pre) ps)
    ++ substitute false post (skipn (S (count_unescaped false pre)) ps).
Proof.
  intros H. rewrite substitute_app.
  - f_equal.
    assert (F : follows_escape false pre = false) by (now destruct pre).
    rewrite F. cbn [append SUBSTITUTE_MASK].
    now rewrite substitute_here, tl_skipn.
  - unfold separate. now rewrite H.
Qed.

End Occurrence.

Lemma Format_scan_screened (pre post : string) (ps : list string) :
  size (pre ++ "%" ++ SUBSTITUTE_MASK ++ post) < npos ->
  Format_scan (pre ++ "%" ++ SUBSTITUTE_MASK ++ post) ps
  = (before <- Format_scan pre ps ;;
     n <- arguments_consumed pre ps ;;
     rest <- Format_scan post (skipn (Z.to_nat n) ps) ;;
     Ok (before ++ SUBSTITUTE_MASK ++ rest)).
Proof.
  intros Hfit. rewrite !size_app in Hfit.
  pose proof (Zle_0_nat (String.length pre)).
  pose proof (Zle_0_nat (String.length post)).
  pose proof (Zle_0_nat (String.length SUBSTITUTE_MASK)).
  pose proof (Zle_0_nat (String.length "%")).
  unfold size in *.
  rewrite Format_scan_correct by (rewrite !size_app; unfold size; lia).
  rewrite Format_scan_correct by (unfold size; lia). cbn [bind].
  rewrite arguments_consumed_correct by (unfold size; lia). cbn [bind].
  rewrite Format_scan_correct by (unfold size; lia). cbn [bind].
  rewrite Nat2Z.id, skipn_min. f_equal. apply substitute_screened.
Qed.

Lemma Format_scan_site (pre post : string) (ps : list string) :
  ends_with_escape pre = false ->
  size (pre ++ SUBSTITUTE_MASK ++ post) < npos ->
  Format_scan (pre ++ SUBSTITUTE_MASK ++ post) ps
  = (before <- Format_scan pre ps ;;
     n <- arguments_consumed pre ps ;;
     rest <- Format_scan post (skipn (S (Z.to_nat n)) ps) ;;
     Ok (before ++ next_parameter (skipn (Z.to_nat n) ps) ++ rest)).
Proof.
  intros Hesc Hfit. rewrite !size_app in Hfit.
  pose proof (Zle_0_nat (String.length pre)).
  pose proof (Zle_0_nat (String.length post)).
  pose proof (Zle_0_nat (String.length SUBSTITUTE_MASK)).
  unfold size in *.
  rewrite Format_scan_correct by (rewrite !size_app; unfold size; lia).
  rewrite Format_scan_correct by (unfold size; lia). cbn [bind].
  rewrite arguments_consumed_correct by (unfold size; lia). cbn [bind].
  rewrite Format_scan_correct by (unfold size; lia). cbn [bind].
  rewrite Nat2Z.id, skipn_min, skipn_succ_min. f_equal.
  now apply substitute_site.
Qed.

(** C3, as stated, fails: the call without arguments keeps the [%] that
    screens the occurrence. *)
Lemma Format_no_arguments_keeps_escape :
  Format formatter "100%%?" [] <> Ok "100%?".
Proof. vm_compute. discriminate. Qed.

(** C3, amended.  In a call with at least one argument, an occurrence of
    the mask just after a [%] is written as the mask, without the [%]; it
    takes no argument, and the template after it is scanned with the
    arguments that the part before it has left.  That text is written to
    the stream as the arguments have left it: the first piece takes the
    pending width, and a stream that is not good takes nothing.  On a good
    stream without a pending width the result is that text as it is. *)
Theorem Format_screened_occurrence (f : Formatter) (pre post : string)
    (args : list value) (ps : list string) (stream' : basic_stringstream) :
  size (pre ++ "%" ++ SUBSTITUTE_MASK ++ post) < npos ->
  args <> [] ->
  rendered (stream_of f) args = Some (ps, stream') ->
  Format f (pre ++ "%" ++ SUBSTITUTE_MASK ++ post) args
  = written stream' (pre ++ "%" ++ SUBSTITUTE_MASK ++ post)
      (before <- Format_scan pre ps ;;
       n <- arguments_consumed pre ps ;;
       rest <- Format_scan post (skipn (Z.to_nat n) ps) ;;
       Ok (before ++ SUBSTITUTE_MASK ++ rest))
  /\ (ios_good (basic_ios stream') = true ->
      ios_width (basic_ios stream') <= 0 ->
      Format f (pre ++ "%" ++ SUBSTITUTE_MASK ++ post) args
      = (before <- Format_scan pre ps ;;
         n <- arguments_consumed pre ps ;;
         rest <- Format_scan post (skipn (Z.to_nat n) ps) ;;
         Ok (before ++ SUBSTITUTE_MASK ++ rest))).
Proof.
  intros Hfit Hne Hr.
  rewrite (Format_with_arguments f _ args ps stream' Hfit Hne Hr). split.
  - now rewrite Format_scan_screened.
  - intros Hg Hw. rewrite written_plain by assumption.
    now apply Format_scan_screened.
Qed.

Lemma Format_screened_occurrence_witness :
  Format formatter "100%%? of %?" [shown "1"] = Ok "100%? of 1"
  /\ Format formatter "100%%?" [setw 8] = Ok "     100%?".
Proof.
  split.
  - exact (proj1 (Format_screened_occurrence formatter "100" " of %?"
                    [shown "1"] ["1"] (stream_of formatter)
                    eq_refl ltac:(discriminate) eq_refl)).
  - exact (proj1 (Format_screened_occurrence formatter "100" "" [setw 8]
                    [""]
                    (str_set (run (fun io => ("", width_set 8 io))
                                (stream_of formatter)) "")
                    eq_refl ltac:(discriminate) eq_refl)).
Defined.

(** C10, as stated, fails: in a call without arguments [%%%?] is returned
    as it is. *)
Lemma Format_no_arguments_keeps_triple :
  Format formatter "%%%?" [] <> Ok "%%?".
Proof. vm_compute. discriminate. Qed.

(** C10, amended.  In a call with at least one argument, the occurrence of
    the mask at a position [p], after [pre], is screened exactly when [p] is
    not [0] and the character at [p - 1] is [%]: then the [%] is dropped,
    the mask is written and no argument is taken; otherwise the occurrence
    takes the next argument.
    The [%] before a screening [%] is an ordinary character: for [%%%?] the
    text [%%?] is written and no argument is taken.
    The text is written to the stream as the arguments have left it: the
    first piece takes the pending width, and a stream that is not good
    takes nothing.  On a good stream without a pending width the result is
    the text as it is. *)
Theorem occurrence_screened_iff_after_escape (f : Formatter)
    (pre post : string) (args : list value) (ps : list string)
    (stream' : basic_stringstream) :
  size (pre ++ SUBSTITUTE_MASK ++ post) < npos ->
  args <> [] ->
  rendered (stream_of f) args = Some (ps, stream') ->
  let scanned :=
    if escaped_at (pre ++ SUBSTITUTE_MASK ++ post) (String.length pre)
    then
      before <- Format_scan (chop pre) ps ;;
      n <- arguments_consumed (chop pre) ps ;;
      rest <- Format_scan post (skipn (Z.to_nat n) ps) ;;
      Ok (before ++ SUBSTITUTE_MASK ++ rest)
    else
      before <- Format_scan pre ps ;;
      n <- arguments_consumed pre ps ;;
      rest <- Format_scan post (skipn (S (Z.to_nat n)) ps) ;;
      Ok (before ++ next_parameter (skipn (Z.to_nat n) ps) ++ rest) in
  Format f (pre ++ SUBSTITUTE_MASK ++ post) args
  = written stream' (pre ++ SUBSTITUTE_MASK ++ post) scanned
  /\ Format f "%%%?" args = written stream' "%%%?" (Ok "%%?")
  /\ arguments_inserted stream' "%%%?" ps = Ok 0
  /\ (ios_good (basic_ios stream') = true ->
      ios_width (basic_ios stream') <= 0 ->
      Format f (pre ++ SUBSTITUTE_MASK ++ post) args = scanned
      /\ Format f "%%%?" args = Ok "%%?").
Proof.
  intros Hfit Hne Hr scanned.
  assert (Hs : Format_scan (pre ++ SUBSTITUTE_MASK ++ post) ps = scanned).
  { unfold scanned. rewrite escaped_at_app.
    destruct (ends_with_escape pre) eqn:E.
    - pose proof (chop_escape pre E) as Hpre.
      rewrite Hpre in Hfit |- * at 1. rewrite append_assoc in Hfit |- *.
      now apply Format_scan_screened.
    - now apply Format_scan_site. }
  assert (Ht : Format_scan "%%%?" ps = Ok "%%?")
    by (rewrite Format_scan_correct by reflexivity; reflexivity).
  rewrite (Format_with_arguments f _ args ps stream' Hfit Hne Hr).
  rewrite (Format_with_arguments f "%%%?" args ps stream' eq_refl Hne Hr).
  rewrite Hs, Ht.
  split; [reflexivity|]. split; [reflexivity|]. split.
  - rewrite (arguments_inserted_consumed stream' "%%%?" ps eq_refl).
    rewrite arguments_consumed_correct by reflexivity.
    cbn. now rewrite Nat.min_0_r.
  - intros Hg Hw. split.
    + rewrite <- Hs. now apply written_plain.
    + rewrite <- Ht. now apply written_plain.
Qed.

Lemma occurrence_screened_iff_after_escape_witness :
  Format formatter "%?%%?" [shown "a"] = Ok "a%?"
  /\ Format formatter "%%%?" [shown "a"] = Ok "%%?"
  /\ arguments_inserted (stream_of formatter) "%%%?" ["a"] = Ok 0.
Proof.
  destruct (occurrence_screened_iff_after_escape formatter "%?%" ""
              [shown "a"] ["a"] (stream_of formatter)
              eq_refl ltac:(discriminate) eq_refl)
    as (H1 & H2 & H3 & _).
  exact (conj H1 (conj H2 H3)).
Defined.

(** The occurrence at the start of the template is a substitution site. *)
Lemma Format_mask_at_start (f : Formatter) (post : string) (t : value)
    (args : list value) (p : string) (ps : list string)
    (stream' : basic_stringstream) :
  size (SUBSTITUTE_MASK ++ post) < npos ->
  rendered (stream_of f) (t :: args) = Some (p :: ps, stream') ->
  Format f (SUBSTITUTE_MASK ++ post) (t :: args)
  = written stream' (SUBSTITUTE_MASK ++ post)
      (rest <- Format_scan post ps ;; Ok (p ++ rest)).
Proof.
  intros Hfit Hr.
  rewrite (Format_with_arguments f _ (t :: args) (p :: ps) stream' Hfit
             ltac:(discriminate) Hr).
  change (SUBSTITUTE_MASK ++ post) with ("" ++ SUBSTITUTE_MASK ++ post)
    in Hfit |- *.
  now rewrite (Format_scan_site "" post (p :: ps) eq_refl Hfit).
Qed.

(** ** The template decides where texts go *)

Section Weave.

Local Open Scope nat_scope.

Lemma cons_head_nonempty (c : ascii) (l : list string) : cons_head c l <> [].
Proof. destruct l; discriminate. Qed.

Lemma literals_nonempty (s : string) : forall a, literals a s <> [].
Proof.
  induction s as [|c t IH]; intros a; [discriminate|].
  cbn [literals].
  destruct (String.prefix SUBSTITUTE_MASK (String c t)).
  - destruct a; [apply cons_head_nonempty|].
    destruct t; discriminate.
  - destruct (is_escape c && String.prefix SUBSTITUTE_MASK t);
      [apply IH | apply cons_head_nonempty].
Qed.

Lemma weave_cons_head (c : ascii) (l : list string) (ps : list string) :
  l <> [] -> weave (cons_head c l) ps = String c (weave l ps).
Proof.
  destruct l as [|x [|y l]]; [congruence | reflexivity | reflexivity].
Qed.

Lemma weave_site (l : list string) (ps : list string) :
  l <> [] ->
  weave (EmptyString :: l) ps = next_parameter ps ++ weave l (tl ps).
Proof. destruct l; [congruence | reflexivity]. Qed.

(** The substitution copies the literal pieces of the template and puts
    the texts between them. *)
Lemma substitute_weave (s : string) :
  forall (a : bool) (ps : list string),
    substitute a s ps = weave (literals a s) ps.
Proof.
  induction s as [s IH] using string_length_ind. intros a ps.
  destruct s as [|c t]; [reflexivity|].
  rewrite substitute_cons. cbn [literals].
  assert (Ht : String.length t < String.length (String c t))
    by (simpl; lia).
  destruct (String.prefix SUBSTITUTE_MASK (String c t)).
  - destruct a.
    + rewrite weave_cons_head by apply literals_nonempty.
      now rewrite (IH t Ht).
    + destruct t as [|d r]; [reflexivity|].
      rewrite weave_site by apply literals_nonempty.
      rewrite (IH r); [reflexivity | simpl; lia].
  - destruct (is_escape c && String.prefix SUBSTITUTE_MASK t).
    + apply (IH t Ht).
    + rewrite weave_cons_head by apply literals_nonempty.
      now rewrite (IH t Ht).
Qed.

End Weave.


Lemma substring_prefix (k : nat) (s : string) :
  String.substring 0 k s ++ skip (String.length (String.substring 0 k s)) s
  = s.
Proof.
  revert k; induction s as [|c s IH]; intros k.
  - destruct k; reflexivity.
  - destruct k as [|k]; [reflexivity|].
    cbn [String.substring String.length skip append]. now rewrite IH.
Qed.

(** The first piece starts the template. *)
Lemma first_piece_prefix (str : string) :
  first_piece str ++ skip (String.length (first_piece str)) str = str.
Proof.
  unfold first_piece.
  destruct (String.index 0 SUBSTITUTE_MASK str) as [j|].
  - apply substring_prefix.
  - rewrite skip_all by lia. apply append_nil_r.
Qed.

(** C9, as stated, fails: of two calls with two arguments each, one returns
    the template with the text of the first argument at the site, and the
    other, whose second argument has put the stream into a failed state,
    returns nothing, so the text of its first argument is not copied. *)
Lemma Format_failed_stream_copies_nothing :
  List.length [shown "1"; failing] = List.length [shown "1"; shown "2"]
  /\ Format formatter "a%?b" [shown "1"; shown "2"] = Ok "a1b"
  /\ Format formatter "a%?b" [shown "1"; failing] = Ok "".
Proof. repeat split. Qed.

(** C9, amended.  For a template and a number of arguments there are
    literal pieces and a count such that every call with that many
    arguments inserts that many of them and writes the pieces with the
    argument texts copied between them, whatever the texts contain: an
    occurrence of the mask inside a text, or the unknown marker, is not
    scanned.  What is written goes to the stream as the arguments have left
    it: the first piece takes the pending width, and a stream that is not
    good takes nothing.  On a good stream without a pending width the
    result is the pieces and the texts as they are. *)
Theorem Format_sites_independent_of_texts (f : Formatter) (str : string)
    (n : nat) :
  size str < npos ->
  exists (pieces : list string) (consumed : Z),
    forall (args : list value) (ps : list string)
           (stream' : basic_stringstream),
      List.length args = n ->
      rendered (stream_of f) args = Some (ps, stream') ->
      Format f str args
      = Ok (on_stream (basic_ios stream') str (weave pieces ps))
      /\ arguments_inserted stream' str ps = Ok consumed
      /\ (ios_good (basic_ios stream') = true ->
          ios_width (basic_ios stream') <= 0 ->
          Format f str args = Ok (weave pieces ps)).
Proof.
  intros Hfit. destruct n as [|n].
  - exists [str], 0. intros args ps stream' Hn Hr.
    destruct args; [|discriminate]. inversion Hr; subst.
    split; [|split].
    + cbn [Format weave]. f_equal. unfold on_stream.
      change (ios_good (basic_ios (stream_of f))) with true. cbn iota.
      rewrite padded_no_width by (cbn; lia).
      symmetry. apply first_piece_prefix.
    + rewrite (arguments_inserted_consumed _ str [] Hfit).
      now rewrite arguments_consumed_correct.
    + reflexivity.
  - exists (literals false str),
      (Z.of_nat (Nat.min (S n) (count_unescaped false str))).
    intros args ps stream' Hn Hr.
    assert (Hne : args <> []) by (destruct args; discriminate).
    rewrite <- substitute_weave. split; [|split].
    + now apply Format_general.
    + rewrite (arguments_inserted_consumed _ str ps Hfit).
      rewrite arguments_consumed_correct by assumption.
      now rewrite (rendered_length _ _ _ _ Hr), Hn.
    + intros Hg Hw. now apply (Format_plain f str args ps stream').
Qed.

Lemma Format_sites_independent_of_texts_witness :
  exists (pieces : list string) (consumed : Z),
    forall (args : list value) (ps : list string)
           (stream' : basic_stringstream),
      List.length args = 2%nat ->
      rendered (stream_of formatter) args = Some (ps, stream') ->
      Format formatter "%? and %%? and %?" args
      = Ok (on_stream (basic_ios stream') "%? and %%? and %?"
              (weave pieces ps))
      /\ arguments_inserted stream' "%? and %%? and %?" ps = Ok consumed
      /\ (ios_good (basic_ios stream') = true ->
          ios_width (basic_ios stream') <= 0 ->
          Format formatter "%? and %%? and %?" args = Ok (weave pieces ps)).
Proof.
  apply (Format_sites_independent_of_texts formatter "%? and %%? and %?" 2).
  reflexivity.
Defined.

Example Format_text_not_scanned :
  Format formatter "%? and %?" [shown "%?"; shown "%%?"] = Ok "%? and %%?".
Proof. reflexivity. Qed.

(** ** Rendering *)

Section Rendering.

(** Induction on arguments, through the elements of containers. *)
Lemma value_nested_ind (P : value -> Prop) :
  (forall b, P (Bool b)) ->
  (forall s, P (BasicString s)) ->
  (forall first second op, P first -> P second -> P (Pair first second op)) ->
  (forall op, P (Object op)) ->
  (forall op T e d elements,
      Forall P elements -> P (Sequence op T e d elements)) ->
  forall t, P t.
Proof.
  intros HB HS HP HO HE. fix IH 1. intros t.
  destruct t as [b|s|first second op|op|op T e d elements].
  - apply HB.
  - apply HS.
  - apply HP; apply IH.
  - apply HO.
  - apply HE. induction elements as [|x l IHl]; constructor.
    + apply IH.
    + exact IHl.
Qed.

Lemma resolve_pair_type (A B : type) (i : bool) :
  resolve (pair_type A B i) = Some ov_pair.
Proof. destruct i; reflexivity. Qed.

Lemma OutputValue_Pair (first second : value) (op : option inserter)
    (stream : basic_stringstream) :
  OutputValue (Pair first second op) stream
  = if instantiates (type_of first) && instantiates (type_of second)
    then
      match OutputValue first (put stream "{") with
      | Some stream =>
          match OutputValue second (put stream " : ") with
          | Some stream => Some (put stream "}")
          | None => None
          end
      | None => None
      end
    else None.
Proof. destruct op; reflexivity. Qed.

Lemma OutputValue_Sequence (T : type) (e d : bool) (l : list value)
    (stream : basic_stringstream) :
  OutputValue (Sequence None T e d l) stream
  = if e && d && instantiates T
    then
      match l with
      | [] => Some (put (put stream "[") "]")
      | _ :: _ =>
          match sequence_loop OutputValue l (put stream "[") with
          | Some stream => Some (put stream "]")
          | None => None
          end
      end
    else None.
Proof. reflexivity. Qed.

Lemma OutputValue_ambiguous_type (ins : inserter) (T : type) (e d : bool)
    (l : list value) (stream : basic_stringstream) :
  OutputValue (Sequence (Some ins) T e d l) stream = None.
Proof. reflexivity. Qed.

Lemma prefixed_nil (stream : basic_stringstream) :
  prefixed (rdbuf stream) (str_set stream "") = stream.
Proof. destruct stream as [b io]. unfold prefixed. cbn. now rewrite append_nil_r. Qed.

Lemma run_prefixed (ins : inserter) (b : string)
    (stream : basic_stringstream) :
  run ins (prefixed b stream) = prefixed b (run ins stream).
Proof.
  unfold run, prefixed. cbn [basic_ios rdbuf].
  destruct (ins (basic_ios stream)) as [text io]. cbn [basic_ios rdbuf].
  now rewrite append_assoc.
Qed.

Lemma put_prefixed (x b : string) (stream : basic_stringstream) :
  put (prefixed b stream) x = prefixed b (put stream x).
Proof. apply run_prefixed. Qed.

Lemma sequence_loop_appends (l : list value) :
  Forall appends l ->
  forall (b : string) (stream : basic_stringstream),
    sequence_loop OutputValue l (prefixed b stream)
    = option_map (prefixed b) (sequence_loop OutputValue l stream).
Proof.
  induction 1 as [|x l Hx Hl IH]; intros b stream; [reflexivity|].
  cbn [sequence_loop]. rewrite (Hx b stream).
  destruct (OutputValue x stream) as [s|]; [|reflexivity].
  cbn [option_map]. destruct l as [|y l']; [reflexivity|].
  rewrite put_prefixed. apply IH.
Qed.

(** Every call appends. *)
Lemma OutputValue_appends (t : value) : appends t.
Proof.
  induction t as [bo|s|first second op IH1 IH2|op|op T e d elements IH]
    using value_nested_ind; intros b stream.
  - cbn. now rewrite put_prefixed.
  - cbn. now rewrite put_prefixed.
  - rewrite !OutputValue_Pair.
    destruct (instantiates (type_of first) && instantiates (type_of second));
      [|reflexivity].
    rewrite put_prefixed, (IH1 b).
    destruct (OutputValue first (put stream "{")) as [s1|]; [|reflexivity].
    cbn [option_map]. rewrite put_prefixed, (IH2 b).
    destruct (OutputValue second (put s1 " : ")) as [s2|]; [|reflexivity].
    cbn [option_map]. now rewrite put_prefixed.
  - destruct op as [ins|]; cbn.
    + now rewrite run_prefixed.
    + now rewrite put_prefixed.
  - destruct op as [ins|]; [reflexivity|].
    rewrite !OutputValue_Sequence.
    destruct (e && d && instantiates T); [|reflexivity].
    destruct elements as [|x l].
    + cbn [option_map]. now rewrite !put_prefixed.
    + rewrite put_prefixed, (sequence_loop_appends _ IH b).
      destruct (sequence_loop OutputValue (x :: l) (put stream "["))
        as [s1|]; [|reflexivity].
      cbn [option_map]. now rewrite put_prefixed.
Qed.

(** An element that leaves the state as it is, on a stream that holds
    characters. *)
Lemma written_as_prefixed (io : ios) (t : value) (text b : string) :
  written_as io t text ->
  OutputValue t {| rdbuf := b; basic_ios := io |}
  = Some {| rdbuf := b ++ text; basic_ios := io |}.
Proof.
  intros H.
  change {| rdbuf := b; basic_ios := io |}
    with (str_set (prefixed b {| rdbuf := ""; basic_ios := io |}) b).
  replace (str_set (prefixed b {| rdbuf := ""; basic_ios := io |}) b)
    with (prefixed b {| rdbuf := ""; basic_ios := io |})
    by (unfold prefixed, str_set; cbn; now rewrite append_nil_r).
  rewrite (OutputValue_appends t b). unfold written_as in H. now rewrite H.
Qed.


End Rendering.




Example OutputValue_empty_container :
  option_map rdbuf
    (OutputValue (container (class_type true) []) (stream_of formatter))
  = Some "[]".
Proof. reflexivity. Qed.

Example OutputValue_nested_containers :
  option_map rdbuf
    (OutputValue
       (Sequence None
          (sequence_type false (class_type true) true true) true true
          [container (class_type true) [shown "1"; shown "2"];
           container (class_type true) []])
       (stream_of formatter))
  = Some "[[1, 2], []]".
Proof. reflexivity. Qed.

Example OutputValue_container_in_field :
  option_map rdbuf
    (OutputValue (container (class_type true) [shown "1"; shown "2"])
       (run (fun io => ("", width_set 4 io)) (stream_of formatter)))
  = Some "   [1, 2]".
Proof. reflexivity. Qed.

Example Format_map :
  Format formatter "Map of %? elements: %?"
    [shown "3";
     container (pair_type (class_type true) bool_type false)
       [Pair (shown "2") (Bool true) None;
        Pair (shown "4.5") (Bool false) None;
        Pair (shown "8") (Bool true) None]]
  = Ok "Map of 3 elements: [{2 : true}, {4.5 : false}, {8 : true}]".
Proof. reflexivity. Qed.

Example Format_unknown_and_known :
  Format formatter "Unknown type is shown as '%?', known type example: '%?'"
    [unknown; shown "Type Y"]
  = Ok "Unknown type is shown as '?', known type example: 'Type Y'".
Proof. reflexivity. Qed.

(** C4, as stated, fails: for a class with both an [operator<<] and
    iterators no overload is selected, while the order of the rules names
    the one for the custom conversion. *)
Lemma inserter_and_sequence_is_ambiguous :
  resolve
    (type_of (Sequence (Some (insert_string "text")) (class_type true)
                true true []))
  <> highest_priority
       (type_of (Sequence (Some (insert_string "text")) (class_type true)
                   true true [])).
Proof. vm_compute. discriminate. Qed.

(** C4, amended.  The overload selected for an argument is the first viable
    one in the order boolean, text, pair, custom conversion, sequence,
    unknown, except that no overload is selected for an argument that has
    both an [operator<<] and iterators and is not a string: such a call is
    ambiguous.  Wrapped by [Output], an argument with an [operator<<] is
    written by that operator. *)
Theorem OutputValue_dispatch (t : value) :
  resolve (type_of t)
  = (if inserter_and_sequence (type_of t) then None
     else highest_priority (type_of t))
  /\ match Output t with
     | Some w =>
         resolve (type_of w) = Some ov_inserter
         /\ forall stream,
              OutputValue w stream
              = option_map (fun ins => run ins stream) (inserter_of t)
     | None => inserter_of t = None
     end.
Proof.
  split.
  - destruct t as [b|s|first second [ins|]|[ins|]|[ins|] T e d elements];
      reflexivity.
  - unfold Output.
    destruct (inserter_of t) as [ins|] eqn:E; [|reflexivity].
    split; [reflexivity|]. intros stream. reflexivity.
Qed.

Example OutputValue_bool (b : bool) (stream : basic_stringstream) :
  OutputValue (Bool b) stream
  = Some (put stream (if b then "true" else "false")).
Proof. reflexivity. Qed.

Example OutputValue_pair_with_inserter :
  option_map rdbuf
    (OutputValue
       (Pair (shown "2") (Bool true) (Some (insert_string "pair")))
       (stream_of formatter))
  = Some "{2 : true}".
Proof. reflexivity. Qed.

Example OutputValue_string_is_text :
  resolve (type_of (BasicString "abc")) = Some ov_basic_string
  /\ option_map rdbuf (OutputValue (BasicString "abc") (stream_of formatter))
     = Some "abc".
Proof. split; reflexivity. Qed.

Example OutputValue_ambiguous :
  OutputValue
    (Sequence (Some (insert_string "text")) (class_type true) true true [])
    (stream_of formatter) = None
  /\ option_map
       (fun w => option_map rdbuf (OutputValue w (stream_of formatter)))
       (Output (Sequence (Some (insert_string "text")) (class_type true)
                  true true []))
     = Some (Some "text").
Proof. split; reflexivity. Qed.

(** * Further properties *)

(** ** Which calls return *)

Section Accepted.

Lemma OutputValue_rejected (t : value) (stream : basic_stringstream) :
  instantiates (type_of t) = false -> OutputValue t stream = None.
Proof.
  intros H.
  destruct t as [b|s|first second op|op|op T e d l];
    cbn [OutputValue]; now rewrite H.
Qed.

Lemma OutputValue_instantiates (t : value)
    (stream stream' : basic_stringstream) :
  OutputValue t stream = Some stream' -> instantiates (type_of t) = true.
Proof.
  intros H. destruct (instantiates (type_of t)) eqn:E; [reflexivity|].
  now rewrite OutputValue_rejected in H.
Qed.





Lemma rendered_app (a b : list value) :
  forall stream,
    rendered stream (a ++ b)%list
    = match rendered stream a with
      | Some (x, stream1) =>
          match rendered stream1 b with
          | Some (y, stream2) => Some ((x ++ y)%list, stream2)
          | None => None
          end
      | None => None
      end.
Proof.
  induction a as [|t a IH]; intros stream.
  - cbn. destruct (rendered stream b) as [[y s]|]; reflexivity.
  - cbn [app rendered].
    destruct (OutputValue t stream) as [s|]; [|reflexivity].
    rewrite IH.
    destruct (rendered (str_set s "") a) as [[x s1]|]; [|reflexivity].
    destruct (rendered s1 b) as [[y s2]|]; reflexivity.
Qed.

End Accepted.






(** X3.  The number of arguments that the loop inserts is the smaller of
    the number of arguments and the number of substitution sites of the
    template. *)
Theorem arguments_consumed_is_min (str : string) (ps : list string) :
  size str < npos ->
  arguments_consumed str ps
  = Ok (Z.min (Z.of_nat (List.length ps))
              (Z.of_nat (List.length (substitution_sites str)))).
Proof.
  intros Hfit. rewrite (arguments_consumed_correct str Hfit).
  rewrite count_unescaped_positions. f_equal. lia.
Qed.

Lemma arguments_consumed_is_min_witness :
  arguments_consumed "%? %%? %? %?" ["a"; "b"; "c"; "d"] = Ok 3.
Proof.
  exact (arguments_consumed_is_min "%? %%? %? %?" ["a"; "b"; "c"; "d"]
           eq_refl).
Defined.

(** ** Templates and arguments put together *)

Section Together.

Local Open Scope nat_scope.

Lemma substitute_flag (s : string) (a : bool) (ps : list string) :
  String.prefix SUBSTITUTE_MASK s = false ->
  substitute a s ps = substitute false s ps.
Proof.
  intros P. destruct s as [|c t]; [reflexivity|].
  now rewrite !substitute_cons, P.
Qed.

Lemma lenient_arguments_app (n : nat) (ps qs : list string) :
  n <= List.length ps ->
  lenient_arguments n (ps ++ qs)%list = lenient_arguments n ps.
Proof.
  intros H. unfold lenient_arguments.
  rewrite firstn_app, length_app.
  replace (n - List.length ps) with 0 by lia.
  replace (n - (List.length ps + List.length qs)) with 0 by lia.
  cbn [firstn repeat]. now rewrite !app_nil_r.
Qed.


End Together.

(** X4.  A template in two parts, where no occurrence of the mask starts on
    the last character of the first part, is scanned part by part: the
    result is the result for the first part followed by the result for the
    second part with the arguments that the first part has not inserted. *)
Theorem Format_scan_app (a b : string) (ps : list string) :
  size (a ++ b) < npos ->
  separate a b = true ->
  Format_scan (a ++ b) ps
  = (before <- Format_scan a ps ;;
     n <- arguments_consumed a ps ;;
     rest <- Format_scan b (skipn (Z.to_nat n) ps) ;;
     Ok (before ++ rest)).
Proof.
  intros Hfit Hsep.
  assert (Ha : size a < npos)
    by (rewrite size_app in Hfit; unfold size in *; lia).
  assert (Hb : size b < npos)
    by (rewrite size_app in Hfit; unfold size in *; lia).
  rewrite (Format_scan_correct _ Hfit), (Format_scan_correct _ Ha).
  cbn [bind]. rewrite (arguments_consumed_correct _ Ha). cbn [bind].
  rewrite (Format_scan_correct _ Hb). cbn [bind].
  rewrite Nat2Z.id, skipn_min, (substitute_app b a false ps Hsep).
  do 2 f_equal.
  destruct (follows_escape false a) eqn:F; [|reflexivity].
  apply substitute_flag.
  destruct a as [|c t]; [discriminate F|].
  cbn [follows_escape] in F. unfold separate in Hsep. rewrite F in Hsep.
  cbn [negb orb] in Hsep. apply negb_true_iff, orb_false_iff in Hsep.
  apply Hsep.
Qed.

Lemma Format_scan_app_witness :
  Format_scan ("%? is 100%" ++ " of %?") ["a"; "b"] = Ok "a is 100% of b".
Proof.
  exact (Format_scan_app "%? is 100%" " of %?" ["a"; "b"] eq_refl eq_refl).
Defined.



Example Format_unknown_argument_takes_width :
  Format formatter "%?" [shown "1"; setw 5; unknown] = Ok "1"
  /\ Format formatter "%?" [shown "1"; setw 5] = Ok "     1".
Proof. split; reflexivity. Qed.


(** X6.  Arguments after the ones that the substitution sites take add no
    text to the result: the result is that of the call without them,
    written to the stream as they have left it.  When they leave the
    formatting state as they find it, the result is the same. *)
Theorem Format_ignores_arguments_beyond_sites (f : Formatter) (str : string)
    (args extra : list value) (ps qs : list string)
    (stream1 stream2 : basic_stringstream) :
  size str < npos ->
  args <> [] ->
  rendered (stream_of f) args = Some (ps, stream1) ->
  rendered stream1 extra = Some (qs, stream2) ->
  (List.length (substitution_sites str) <= List.length args)%nat ->
  Format f str (args ++ extra)%list
  = Ok (on_stream (basic_ios stream2) str (substitute false str ps))
  /\ (basic_ios stream2 = basic_ios stream1 ->
      Format f str (args ++ extra)%list = Format f str args).
Proof.
  intros Hfit Hne Hr Hq Hn.
  assert (E : Format f str (args ++ extra)%list
              = Ok (on_stream (basic_ios stream2) str
                      (substitute false str ps))).
  { rewrite (Format_general f str (args ++ extra)%list (ps ++ qs)%list
               stream2 Hfit).
    - do 2 f_equal. rewrite substitute_lenient, lenient_arguments_app.
      + symmetry. apply substitute_lenient.
      + rewrite <- count_unescaped_positions in Hn.
        now rewrite (rendered_length _ _ _ _ Hr).
    - destruct args; [congruence | discriminate].
    - now rewrite rendered_app, Hr, Hq. }
  split; [exact E|].
  intros Hio. rewrite E, Hio. symmetry. now apply Format_general.
Qed.

Lemma Format_ignores_arguments_beyond_sites_witness :
  Format formatter "%?" [shown "1"; shown "2"; setw 5]
  = Ok "     1"
  /\ Format formatter "%?" [shown "1"; shown "2"; Bool true]
     = Format formatter "%?" [shown "1"].
Proof.
  split.
  - exact (proj1 (Format_ignores_arguments_beyond_sites formatter "%?"
                    [shown "1"] [shown "2"; setw 5] ["1"] ["2"; ""]
                    (stream_of formatter)
                    (str_set (run (fun io => ("", width_set 5 io))
                                (stream_of formatter)) "")
                    eq_refl ltac:(discriminate) eq_refl eq_refl (le_n 1))).
  - exact (proj2 (Format_ignores_arguments_beyond_sites formatter "%?"
                    [shown "1"] [shown "2"; Bool true] ["1"] ["2"; "true"]
                    (stream_of formatter) (stream_of formatter)
                    eq_refl ltac:(discriminate) eq_refl eq_refl (le_n 1))
             eq_refl).
Defined.

Lemma firstn_skipn_nth {A : Type} (l : list A) (i : nat) (d : A) :
  (i < List.length l)%nat ->
  l = (firstn i l ++ nth i l d :: skipn (S i) l)%list.
Proof.
  revert i; induction l as [|x l IH]; intros i H; simpl in H; [lia|].
  destruct i as [|i]; [reflexivity|].
  cbn [firstn nth skipn app]. f_equal. apply IH. lia.
Qed.

(** X7.  [GetOutputParameters] fills the array with one text for each
    argument, in the order of the arguments, on one stream: the text at an
    index is what [OutputValue] writes for the argument at that index on
    the stream as the arguments before it have left it. *)
Theorem GetOutputParameters_in_order (stream stream' : basic_stringstream)
    (args : list value) (ps : list string) (i : nat) :
  GetOutputParameters stream args = Some (ps, stream') ->
  (i < List.length args)%nat ->
  List.length ps = List.length args
  /\ exists before after : basic_stringstream,
       rendered stream (firstn i args) = Some (firstn i ps, before)
       /\ OutputValue (nth i args unknown) before = Some after
       /\ rdbuf after = nth i ps "".
Proof.
  intros Hg Hi. destruct args as [|t args]; [discriminate|].
  rewrite GetOutputParameters_rendered in Hg.
  pose proof (rendered_length _ _ _ _ Hg) as Hl. split; [exact Hl|].
  remember (t :: args) as l eqn:El. clear El t args.
  rewrite (firstn_skipn_nth l i unknown Hi) in Hg.
  rewrite rendered_app in Hg.
  destruct (rendered stream (firstn i l)) as [[x before]|] eqn:E1;
    [|discriminate].
  cbn [rendered] in Hg.
  destruct (OutputValue (nth i l unknown) before) as [after|] eqn:E2;
    [|discriminate].
  destruct (rendered (str_set after "") (skipn (S i) l)) as [[y s2]|] eqn:E3;
    [|discriminate].
  inversion Hg; subst.
  pose proof (rendered_length _ _ _ _ E1) as L1.
  rewrite length_firstn, Nat.min_l in L1 by lia.
  exists before, after.
  rewrite firstn_app, L1, Nat.sub_diag, firstn_all2 by lia.
  cbn [firstn]. rewrite app_nil_r.
  rewrite app_nth2, L1, Nat.sub_diag by lia.
  repeat split; assumption.
Qed.

Lemma GetOutputParameters_in_order_witness :
  List.length [""; "   7"; "?"] = 3%nat
  /\ exists before after : basic_stringstream,
       rendered (stream_of formatter) (firstn 1 [setw 4; shown "7"; unknown])
       = Some (firstn 1 [""; "   7"; "?"], before)
       /\ OutputValue (nth 1 [setw 4; shown "7"; unknown] unknown) before
          = Some after
       /\ rdbuf after = nth 1 [""; "   7"; "?"] "".
Proof.
  exact (GetOutputParameters_in_order (stream_of formatter)
           (stream_of formatter) [setw 4; shown "7"; unknown]
           [""; "   7"; "?"] 1 eq_refl
           (le_n_S _ _ (le_n_S _ _ (le_0_n _)))).
Defined.

(** ** Overloads one by one *)

(** X8.  On a good stream without a pending width, a pair whose members
    leave the formatting state as they find it is written as [{], its first
    member, [ : ], its second member and [}], each member as [OutputValue]
    writes it; an [operator<<] declared for the pair type is not used. *)
Theorem OutputValue_pair (first second : value) (op : option inserter)
    (a b : string) (stream : basic_stringstream) :
  ios_good (basic_ios stream) = true ->
  ios_width (basic_ios stream) = 0 ->
  written_as (basic_ios stream) first a ->
  written_as (basic_ios stream) second b ->
  OutputValue (Pair first second op) stream
  = Some {| rdbuf := rdbuf stream ++ "{" ++ a ++ " : " ++ b ++ "}";
            basic_ios := basic_ios stream |}.
Proof.
  intros Hg Hw Ha Hb. rewrite OutputValue_Pair.
  rewrite (OutputValue_instantiates first _ _ Ha).
  rewrite (OutputValue_instantiates second _ _ Hb). cbn [andb].
  rewrite put_plain by assumption.
  rewrite (written_as_prefixed _ first a _ Ha).
  rewrite put_plain by (cbn [basic_ios]; assumption).
  cbn [rdbuf basic_ios].
  rewrite (written_as_prefixed _ second b _ Hb).
  rewrite put_plain by (cbn [basic_ios]; assumption).
  cbn [rdbuf basic_ios]. now rewrite !append_assoc.
Qed.

Lemma OutputValue_pair_witness :
  OutputValue
    (Pair (shown "4.5") (Bool false) (Some (insert_string "unused")))
    (str_set (stream_of formatter) "key: ")
  = Some {| rdbuf := "key: {4.5 : false}";
            basic_ios := basic_ios (stream_of formatter) |}.
Proof.
  exact (OutputValue_pair (shown "4.5") (Bool false)
           (Some (insert_string "unused")) "4.5" "false"
           (str_set (stream_of formatter) "key: ")
           eq_refl eq_refl eq_refl eq_refl).
Defined.

Example OutputValue_pair_in_field :
  option_map rdbuf
    (OutputValue (Pair (setw 5) (shown "7") None) (stream_of formatter))
  = Some "{   : 7}".
Proof. reflexivity. Qed.

(** X9.  [OutputValue] only appends: the stream after the call holds the
    characters it held before, followed by what the call writes to the
    stream when it holds none; the formatting state after the call is the
    same in both cases, and the call is refused on one stream when it is on
    the other. *)
Theorem OutputValue_appends_to_stream (t : value)
    (stream : basic_stringstream) :
  OutputValue t stream
  = option_map (prefixed (rdbuf stream)) (OutputValue t (str_set stream "")).
Proof.
  rewrite <- (OutputValue_appends t (rdbuf stream) (str_set stream "")).
  now rewrite prefixed_nil.
Qed.

Lemma land_disjoint (flags mask bit : Z) :
  Z.land flags bit = 0 -> bit <> 0 -> Z.land bit mask = bit ->
  Z.land flags mask <> bit.
Proof.
  intros H0 Hb Hm E.
  assert (X : Z.land (Z.land flags mask) bit = bit)
    by (rewrite E; apply Z.land_diag).
  rewrite <- Z.land_assoc, (Z.land_comm mask bit), Hm, H0 in X.
  congruence.
Qed.

(** X10.  Wrapped by [Output], a [bool] is written by the stream's own
    [operator<<]: with the flags of the formatter that leave [boolalpha],
    [showpos], [oct] and [hex] unset it is written as [1] or [0], where the
    unwrapped [bool] gives [true] or [false]. *)
Theorem Output_bool_is_numeric (f : Formatter) (b : bool) (buffer : string) :
  Z.land (m_flags f) ios_base.boolalpha = 0 ->
  Z.land (m_flags f) ios_base.showpos = 0 ->
  Z.land (m_flags f) ios_base.oct = 0 ->
  Z.land (m_flags f) ios_base.hex = 0 ->
  option_map
    (fun w => option_map rdbuf (OutputValue w (str_set (stream_of f) buffer)))
    (Output (Bool b))
  = Some (Some (buffer ++ (if b then "1" else "0")))
  /\ option_map rdbuf (OutputValue (Bool b) (str_set (stream_of f) buffer))
     = Some (buffer ++ (if b then "true" else "false")).
Proof.
  intros Ha Hp Ho Hh. split.
  - cbn [Output inserter_of option_map].
    change (OutputValue (Object (Some (num_put_bool b)))
              (str_set (stream_of f) buffer))
      with (Some (run (num_put_bool b) (str_set (stream_of f) buffer))).
    cbn [option_map]. do 2 f_equal.
    unfold run, num_put_bool.
    cbn [basic_ios str_set stream_of AssignStreamSettings ios_good ios_flags
         basic_stringstream_init ios_width ios_fill].
    rewrite Ha, Hp. cbn [Z.eqb].
    assert (E1 : (Z.land (m_flags f) ios_base.basefield =? ios_base.oct)
                 = false).
    { apply Z.eqb_neq. apply land_disjoint;
        [assumption | discriminate | reflexivity]. }
    assert (E2 : (Z.land (m_flags f) ios_base.basefield =? ios_base.hex)
                 = false).
    { apply Z.eqb_neq. apply land_disjoint;
        [assumption | discriminate | reflexivity]. }
    rewrite E1, E2. cbn [negb andb String.eqb].
    rewrite andb_false_r. cbn [rdbuf]. f_equal.
    apply padded_no_width. cbn. lia.
  - change (OutputValue (Bool b) (str_set (stream_of f) buffer))
      with (Some (put (str_set (stream_of f) buffer)
                    (if b then "true" else "false"))).
    cbn [option_map]. rewrite put_plain by reflexivity. reflexivity.
Qed.

Lemma Output_bool_is_numeric_witness :
  option_map
    (fun w => option_map rdbuf
                (OutputValue w (str_set (stream_of formatter) "")))
    (Output (Bool true))
  = Some (Some "1")
  /\ option_map rdbuf
       (OutputValue (Bool true) (str_set (stream_of formatter) ""))
     = Some "true".
Proof.
  exact (Output_bool_is_numeric formatter true "" eq_refl eq_refl eq_refl
           eq_refl).
Defined.

Example Output_bool_showpos :
  option_map
    (fun w =>
       option_map rdbuf
         (OutputValue w
            (stream_of
               (Formatter_of "C" (Z.lor ios_base.dec ios_base.showpos) 6))))
    (Output (Bool true))
  = Some (Some "+1").
Proof. reflexivity. Qed.

(** ** The overload on a pointer *)

Lemma basic_string_of_terminated (a rest : string) :
  (forall p, String.get p a <> Some Ascii.zero) ->
  basic_string_of (a ++ String Ascii.zero rest) = a.
Proof.
  induction a as [|c t IH]; intros H.
  - reflexivity.
  - cbn [append basic_string_of].
    destruct (Ascii.eqb c Ascii.zero) eqn:E.
    + apply Ascii.eqb_eq in E. subst. now specialize (H 0%nat).
    + f_equal. apply IH. intros p. apply (H (S p)).
Qed.

(** X11.  The overload on a pointer reads the template up to the first null
    character and makes the call of the overload on a string with it:
    nothing after the terminator is scanned or copied. *)
Theorem Format_seq_up_to_terminator (f : Formatter) (a rest : string)
    (args : list value) :
  (forall p, String.get p a <> Some Ascii.zero) ->
  Format_seq f (a ++ String Ascii.zero rest) args = Format f a args.
Proof.
  intros H. unfold Format_seq. now rewrite basic_string_of_terminated.
Qed.

Lemma Format_seq_up_to_terminator_witness :
  Format_seq formatter ("%?" ++ String Ascii.zero "%?") [shown "1"]
  = Format formatter "%?" [shown "1"].
Proof.
  apply (Format_seq_up_to_terminator formatter "%?" "%?" [shown "1"]).
  intros p. do 2 (destruct p as [|p]; [discriminate|]). discriminate.
Defined.

(** ** Settings *)

Section Flags.

Lemma testbit_set_under_mask (m flags mask : Z) (n : Z) :
  Z.testbit (Z.lor (Z.land m (Z.lnot mask)) (Z.land flags mask)) n
  = if Z.testbit mask n then Z.testbit flags n else Z.testbit m n.
Proof.
  destruct (Z.neg_nonneg_cases n) as [Hn|Hn].
  - rewrite !(Z.testbit_neg_r _ n Hn). reflexivity.
  - rewrite Z.lor_spec, !Z.land_spec, Z.lnot_spec by assumption.
    destruct (Z.testbit mask n), (Z.testbit flags n), (Z.testbit m n);
      reflexivity.
Qed.

Lemma set_under_own_mask (m flags : Z) :
  Z.lor (Z.land m (Z.lnot flags)) (Z.land flags flags) = Z.lor m flags.
Proof.
  apply Z.bits_inj'. intros n Hn.
  rewrite testbit_set_under_mask, Z.lor_spec.
  destruct (Z.testbit flags n), (Z.testbit m n); reflexivity.
Qed.

Lemma clear_after_set (m flags : Z) :
  Z.land (Z.lor m flags) (Z.lnot flags) = Z.land m (Z.lnot flags).
Proof.
  apply Z.bits_inj'. intros n Hn.
  rewrite !Z.land_spec, Z.lor_spec, Z.lnot_spec by assumption.
  destruct (Z.testbit flags n), (Z.testbit m n); reflexivity.
Qed.

Lemma set_after_clear (m flags : Z) :
  Z.lor (Z.land m (Z.lnot flags)) flags = Z.lor m flags.
Proof.
  apply Z.bits_inj'. intros n Hn.
  rewrite !Z.lor_spec, Z.land_spec, Z.lnot_spec by assumption.
  destruct (Z.testbit flags n), (Z.testbit m n); reflexivity.
Qed.

End Flags.

(** X12.  After [SetF(flags, mask)] every flag under the mask is as in
    [flags] and every other flag is as it was. *)
Theorem SetF_mask_bits (flags mask : ios_base.fmtflags) (f : Formatter)
    (n : Z) :
  Z.testbit (Flags (snd (SetF_mask flags mask f))) n
  = if Z.testbit mask n then Z.testbit flags n else Z.testbit (Flags f) n.
Proof. apply testbit_set_under_mask. Qed.

(** X13.  [SetF(flags)] adds the flags of [flags] to the ones that are set
    and [UnSetF(flags)] removes them; no other flag changes. *)
Theorem SetF_UnSetF_bits (flags : ios_base.fmtflags) (f : Formatter)
    (n : Z) :
  Z.testbit (Flags (snd (SetF flags f))) n
  = Z.testbit (Flags f) n || Z.testbit flags n
  /\ Z.testbit (Flags (snd (UnSetF flags f))) n
     = Z.testbit (Flags f) n && negb (Z.testbit flags n).
Proof.
  cbn [SetF UnSetF snd Flags m_flags]. split.
  - apply Z.lor_spec.
  - destruct (Z.neg_nonneg_cases n) as [Hn|Hn].
    + now rewrite !(Z.testbit_neg_r _ n Hn).
    + now rewrite Z.land_spec, Z.lnot_spec.
Qed.

(** X14.  [SetF(flags)] leaves the formatter as [SetF(flags, flags)] does,
    and [UnSetF(flags)] as [SetF(0, flags)] does. *)
Theorem SetF_UnSetF_as_masked (flags : ios_base.fmtflags) (f : Formatter) :
  snd (SetF flags f) = snd (SetF_mask flags flags f)
  /\ snd (UnSetF flags f) = snd (SetF_mask 0 flags f).
Proof.
  cbn [SetF UnSetF SetF_mask snd]. split.
  - now rewrite set_under_own_mask.
  - now rewrite Z.land_0_l, Z.lor_0_r.
Qed.

(** X15.  Clearing flags that have just been set is the same as clearing
    them at once, and setting flags that have just been cleared is the same
    as setting them at once. *)
Theorem SetF_UnSetF_last_wins (flags : ios_base.fmtflags) (f : Formatter) :
  snd (UnSetF flags (snd (SetF flags f))) = snd (UnSetF flags f)
  /\ snd (SetF flags (snd (UnSetF flags f))) = snd (SetF flags f).
Proof.
  cbn [SetF UnSetF snd m_flags m_ptr_locale m_precision]. split.
  - now rewrite clear_after_set.
  - now rewrite set_after_clear.
Qed.

(** X16.  A value returned by a setter restores the formatter: after
    [Flags], [SetF] with one or two arguments, [Imbue] or [Precision], a
    call of [Flags], [Imbue] or [Precision] with the returned value leaves
    the formatter as it was before the first call. *)
Theorem setter_result_restores (flags mask : ios_base.fmtflags)
    (loc : locale) (prec : streamsize) (f : Formatter) :
  snd (Flags_set (fst (Flags_set flags f)) (snd (Flags_set flags f))) = f
  /\ snd (Flags_set (fst (SetF flags f)) (snd (SetF flags f))) = f
  /\ snd (Flags_set (fst (SetF_mask flags mask f))
            (snd (SetF_mask flags mask f))) = f
  /\ snd (Imbue (fst (Imbue loc f)) (snd (Imbue loc f))) = f
  /\ snd (Precision_set (fst (Precision_set prec f))
            (snd (Precision_set prec f))) = f.
Proof. destruct f. repeat split. Qed.

(** X17.  A setter changes one setting only: the calls on flags leave the
    locale and the precision, [Imbue] leaves the flags and the precision,
    and [Precision] leaves the flags and the locale. *)
Theorem setter_changes_one_setting (s : setter) (f : Formatter) :
  match s with
  | call_Flags _ | call_SetF _ | call_SetF_mask _ _ | call_UnSetF _ =>
      Getloc (snd (call s f)) = Getloc f
      /\ Precision (snd (call s f)) = Precision f
  | call_Imbue _ =>
      Flags (snd (call s f)) = Flags f
      /\ Precision (snd (call s f)) = Precision f
  | call_Precision _ =>
      Flags (snd (call s f)) = Flags f
      /\ Getloc (snd (call s f)) = Getloc f
  end.
Proof. destruct s; split; reflexivity. Qed.
